(** * INIReader (ini_reader.h): a shallow embedding and its properties

    The reader keeps a [std::map] from section names to [std::multimap]s of
    items, a cursor ([current_section]) and a one-section read cache.  Both
    containers are ordered by [std::string::operator<], so they are modelled
    as association lists kept in key order; the multimap keeps equal keys in
    insertion order.  Member functions that touch the cache are written in
    state-passing style: they return their C++ result together with the
    reader they leave behind. *)

From Stdlib Require Import Ascii String List Bool Arith ZArith Lia Sorted Permutation.
From Stdlib Require Import DecimalString DecimalPos DecimalZ.
Import ListNotations.

Local Open Scope char_scope.
Local Open Scope list_scope.

(** ** Strings *)

(** [std::string] as the list of its bytes. *)
Notation str := (list ascii) (only parsing).

Definition lit (s : string) : str := list_ascii_of_string s.

Definition LF : ascii := ascii_of_nat 10.
Definition CR : ascii := ascii_of_nat 13.

Fixpoint str_eqb (a b : str) : bool :=
  match a, b with
  | [], [] => true
  | x :: a', y :: b' => Ascii.eqb x y && str_eqb a' b'
  | _, _ => false
  end.

(** [std::string::compare]: bytes are compared as unsigned chars, a proper
    prefix is smaller. *)
Fixpoint str_compare (a b : str) : comparison :=
  match a, b with
  | [], [] => Eq
  | [], _ :: _ => Lt
  | _ :: _, [] => Gt
  | x :: a', y :: b' =>
      match Ascii.compare x y with
      | Eq => str_compare a' b'
      | c => c
      end
  end.

Definition str_ltb (a b : str) : bool :=
  match str_compare a b with Lt => true | _ => false end.

(** [a.find(p) == 0]: [p] is a prefix of [a]. *)
Fixpoint starts_with (p a : str) : bool :=
  match p, a with
  | [], _ => true
  | x :: p', y :: a' => Ascii.eqb x y && starts_with p' a'
  | _ :: _, [] => false
  end.

Fixpoint strs_eqb (a b : list str) : bool :=
  match a, b with
  | [], [] => true
  | x :: a', y :: b' => str_eqb x y && strs_eqb a' b'
  | _, _ => false
  end.

(** [count(v.begin(), v.end(), s) > 0] *)
Definition contains (v : list str) (s : str) : bool := existsb (str_eqb s) v.

(** ** Helpers declared in misc.h *)

(** Modelled from the spec: misc.h is not under src/.  [replace_all_distinct
    (s, "\r", "")] strips every carriage return of a line (spec 4.1). *)
Definition strip_cr (s : str) : str :=
  filter (fun c => negb (Ascii.eqb c CR)) s.

Definition is_space (c : ascii) : bool :=
  Ascii.eqb c " " || Ascii.eqb c (ascii_of_nat 9) || Ascii.eqb c LF
  || Ascii.eqb c (ascii_of_nat 11) || Ascii.eqb c (ascii_of_nat 12)
  || Ascii.eqb c CR.

Fixpoint drop_spaces (s : str) : str :=
  match s with
  | c :: s' => if is_space c then drop_spaces s' else s
  | [] => []
  end.

(** Modelled from the spec: misc.h's [trim] is not under src/.  Keys and
    values are "trimmed of surrounding whitespace" (spec 4.2). *)
Definition trim (s : str) : str := rev (drop_spaces (rev (drop_spaces s))).

(** The two patterns of [Parse]. *)
Inductive pattern := regSection | regItem.

(** [.] of a regular expression: any character but a line terminator. *)
Definition dot (c : ascii) : bool :=
  negb (Ascii.eqb c LF) && negb (Ascii.eqb c CR).

Fixpoint before_eq (s : str) : str :=
  match s with
  | [] => []
  | c :: s' => if Ascii.eqb c "=" then [] else c :: before_eq s'
  end.

Fixpoint after_eq (s : str) : str :=
  match s with
  | [] => []
  | c :: s' => if Ascii.eqb c "=" then s' else after_eq s'
  end.

Definition ends_with_bracket (s : str) : bool :=
  match rev s with
  | c :: _ => Ascii.eqb c "]"
  | [] => false
  end.

(** Modelled from the spec: misc.h's [regMatch] is not under src/.  A whole
    line matches [^\[(.*?)\]$] when it opens with a bracket and closes with
    one, and [^(.*?)=(.*?)$] when it holds an equals sign (spec 4.2). *)
Definition regMatch (src : str) (p : pattern) : bool :=
  match p with
  | regItem => forallb dot src && existsb (Ascii.eqb "=") src
  | regSection =>
      match src with
      | c :: r => Ascii.eqb c "[" && ends_with_bracket r && forallb dot r
      | [] => false
      end
  end.

(** Modelled from the spec: misc.h's [regReplace] is not under src/.
    [regReplace src p n] is [regReplace(src, p, "$n")] on a matching line:
    the bracketed text of a header; the text before the first equals sign
    and the text after it for an item (lazy groups, spec 4.2). *)
Definition regReplace (src : str) (p : pattern) (n : nat) : str :=
  match p, n with
  | regSection, 1 => removelast (tl src)
  | regItem, 1 => before_eq src
  | regItem, 2 => after_eq src
  | _, _ => []
  end.

Definition MAX_LINE_LENGTH : nat := 4096.

(** [while(getline(strm, line, delimiter))]: the lines of a text.  A
    delimiter ends a line; the characters after the last delimiter form a
    line only when there is at least one. *)
Fixpoint getlines (delimiter : ascii) (s : str) : list str :=
  match s with
  | [] => []
  | c :: s' =>
      if Ascii.eqb c delimiter then [] :: getlines delimiter s'
      else match getlines delimiter s' with
           | [] => [[c]]
           | l :: ls => (c :: l) :: ls
           end
  end.

(** ** Containers *)

(** [std::multimap<std::string, std::string>]: items in key order, equal
    keys in insertion order. *)
Definition string_multimap := list (str * str).

(** [std::map<std::string, string_multimap>]: sections in name order. *)
Definition ini_data_struct := list (str * string_multimap).

(** [multimap::insert]: the new item goes after every item whose key is not
    greater. *)
Fixpoint mm_insert (k v : str) (g : string_multimap) : string_multimap :=
  match g with
  | [] => [(k, v)]
  | (k', v') :: g' =>
      if str_ltb k k' then (k, v) :: g else (k', v') :: mm_insert k v g'
  end.

(** [multimap::find]: the first item with the key, if any. *)
Fixpoint mm_find (k : str) (g : string_multimap) : option str :=
  match g with
  | [] => None
  | (k', v') :: g' => if str_eqb k' k then Some v' else mm_find k g'
  end.

(** [multimap::erase(key)]: what is left; the count is the difference of
    the sizes. *)
Definition mm_erase (k : str) (g : string_multimap) : string_multimap :=
  filter (fun kv => negb (str_eqb (fst kv) k)) g.

(** [multimap::erase(find(key))] *)
Fixpoint mm_erase_first (k : str) (g : string_multimap) : string_multimap :=
  match g with
  | [] => []
  | (k', v') :: g' =>
      if str_eqb k' k then g' else (k', v') :: mm_erase_first k g'
  end.

(** [map::find] *)
Fixpoint map_find (k : str) (m : ini_data_struct) : option string_multimap :=
  match m with
  | [] => None
  | (k', g) :: m' => if str_eqb k' k then Some g else map_find k m'
  end.

(** [map::insert]: a name already there keeps its group. *)
Fixpoint map_insert (k : str) (g : string_multimap) (m : ini_data_struct)
  : ini_data_struct :=
  match m with
  | [] => [(k, g)]
  | (k', g') :: m' =>
      match str_compare k k' with
      | Lt => (k, g) :: m
      | Eq => m
      | Gt => (k', g') :: map_insert k g m'
      end
  end.

(** [m[k] = g] *)
Fixpoint map_assign (k : str) (g : string_multimap) (m : ini_data_struct)
  : ini_data_struct :=
  match m with
  | [] => [(k, g)]
  | (k', g') :: m' =>
      match str_compare k k' with
      | Lt => (k, g) :: m
      | Eq => (k', g) :: m'
      | Gt => (k', g') :: map_assign k g m'
      end
  end.

(** ** The reader *)

Record INIReader := mkReader {
  parsed : bool;
  current_section : str;
  ini_content : ini_data_struct;
  exclude_sections : list str;
  include_sections : list str;
  read_sections : list str;
  cached_section : str;
  cached_section_content : string_multimap;
  do_utf8_to_gbk : bool;
  store_any_line : bool
}.

(** [INIReader()] *)
Definition new_reader : INIReader :=
  mkReader false [] [] [] [] [] [] [] false false.

Definition with_parsed (b : bool) (rd : INIReader) : INIReader :=
  mkReader b (current_section rd) (ini_content rd) (exclude_sections rd)
    (include_sections rd) (read_sections rd) (cached_section rd)
    (cached_section_content rd) (do_utf8_to_gbk rd) (store_any_line rd).

Definition with_current (s : str) (rd : INIReader) : INIReader :=
  mkReader (parsed rd) s (ini_content rd) (exclude_sections rd)
    (include_sections rd) (read_sections rd) (cached_section rd)
    (cached_section_content rd) (do_utf8_to_gbk rd) (store_any_line rd).

Definition with_content (m : ini_data_struct) (rd : INIReader) : INIReader :=
  mkReader (parsed rd) (current_section rd) m (exclude_sections rd)
    (include_sections rd) (read_sections rd) (cached_section rd)
    (cached_section_content rd) (do_utf8_to_gbk rd) (store_any_line rd).

Definition with_read (l : list str) (rd : INIReader) : INIReader :=
  mkReader (parsed rd) (current_section rd) (ini_content rd)
    (exclude_sections rd) (include_sections rd) l (cached_section rd)
    (cached_section_content rd) (do_utf8_to_gbk rd) (store_any_line rd).

Definition with_cache (s : str) (g : string_multimap) (rd : INIReader)
  : INIReader :=
  mkReader (parsed rd) (current_section rd) (ini_content rd)
    (exclude_sections rd) (include_sections rd) (read_sections rd) s g
    (do_utf8_to_gbk rd) (store_any_line rd).

Definition with_store_any_line (b : bool) (rd : INIReader) : INIReader :=
  mkReader (parsed rd) (current_section rd) (ini_content rd)
    (exclude_sections rd) (include_sections rd) (read_sections rd)
    (cached_section rd) (cached_section_content rd) (do_utf8_to_gbk rd) b.

Definition chkIgnore (rd : INIReader) (section : str) : bool :=
  let excluded := contains (exclude_sections rd) section in
  let included :=
    match include_sections rd with
    | [] => true
    | _ :: _ => contains (include_sections rd) section
    end in
  excluded || negb included.

Definition ExcludeSection (rd : INIReader) (section : str) : INIReader :=
  mkReader (parsed rd) (current_section rd) (ini_content rd)
    (exclude_sections rd ++ [section]) (include_sections rd)
    (read_sections rd) (cached_section rd) (cached_section_content rd)
    (do_utf8_to_gbk rd) (store_any_line rd).

Definition IncludeSection (rd : INIReader) (section : str) : INIReader :=
  mkReader (parsed rd) (current_section rd) (ini_content rd)
    (exclude_sections rd) (include_sections rd ++ [section])
    (read_sections rd) (cached_section rd) (cached_section_content rd)
    (do_utf8_to_gbk rd) (store_any_line rd).

Definition EraseAll (rd : INIReader) : INIReader :=
  with_parsed false (with_content [] rd).

Definition SectionExist (rd : INIReader) (section : str) : bool :=
  match map_find section (ini_content rd) with Some _ => true | None => false end.

Definition SectionCount (rd : INIReader) : nat := length (ini_content rd).

Definition GetSections (rd : INIReader) : list str := map fst (ini_content rd).

(** [ini_content.at(section)] where the caller has checked the section. *)
Definition content_at (rd : INIReader) (section : str) : string_multimap :=
  match map_find section (ini_content rd) with Some g => g | None => [] end.

(** ** Cursor, cache and accessors *)

Local Open Scope Z_scope.

Definition EnterSection (rd : INIReader) (section : str) : Z * INIReader :=
  if negb (SectionExist rd section) then (-1, rd)
  else (0, with_cache section (content_at rd section) (with_current section rd)).

Definition SetCurrentSection (rd : INIReader) (section : str) : INIReader :=
  with_current section rd.

(** The refresh shared by the qualified readers:
    [if(section != cached_section) { cached_section = section; ... }] *)
Definition refresh_cache (rd : INIReader) (section : str) : INIReader :=
  if negb (str_eqb section (cached_section rd))
  then with_cache section (content_at rd section) rd
  else rd.

Definition ItemExist (rd : INIReader) (section itemName : str)
  : bool * INIReader :=
  if negb (SectionExist rd section) then (false, rd)
  else
    let rd1 := refresh_cache rd section in
    (match mm_find itemName (cached_section_content rd1) with
     | Some _ => true
     | None => false
     end, rd1).

Definition ItemExist_current (rd : INIReader) (itemName : str)
  : bool * INIReader :=
  if negb (str_eqb (current_section rd) [])
  then ItemExist rd (current_section rd) itemName
  else (false, rd).

Definition ItemPrefixExist (rd : INIReader) (section itemName : str)
  : bool * INIReader :=
  if negb (SectionExist rd section) then (false, rd)
  else
    let rd1 := refresh_cache rd section in
    (existsb (fun x => starts_with itemName (fst x))
       (cached_section_content rd1), rd1).

Definition ItemCount (rd : INIReader) (section : str) : nat :=
  if negb (parsed rd) || negb (SectionExist rd section) then 0%nat
  else length (content_at rd section).

(** [GetItems(section, data)]: [data] is the caller's multimap, overwritten
    on success only. *)
Definition GetItems (rd : INIReader) (section : str) (data : string_multimap)
  : (Z * string_multimap) * INIReader :=
  if negb (parsed rd) || negb (SectionExist rd section) then ((-1, data), rd)
  else
    let rd1 := refresh_cache rd section in
    ((0, cached_section_content rd1), rd1).

Definition GetItems_current (rd : INIReader) (data : string_multimap)
  : (Z * string_multimap) * INIReader :=
  if negb (str_eqb (current_section rd) [])
  then GetItems rd (current_section rd) data
  else ((-1, data), rd).

(** [GetAll(section, itemName, results)]: the values found are pushed onto
    the caller's [results]. *)
Definition GetAll (rd : INIReader) (section itemName : str)
  (results : list str) : (Z * list str) * INIReader :=
  if negb (parsed rd) then ((-1, results), rd)
  else
    match GetItems rd section [] with
    | ((0, mapTemp), rd1) =>
        ((0, results ++
               map snd (filter (fun x => starts_with itemName (fst x)) mapTemp)),
         rd1)
    | (_, rd1) => ((-1, results), rd1)
    end.

Definition GetAll_current (rd : INIReader) (itemName : str)
  (results : list str) : (Z * list str) * INIReader :=
  if negb (str_eqb (current_section rd) [])
  then GetAll rd (current_section rd) itemName results
  else ((-1, results), rd).

Definition Get (rd : INIReader) (section itemName : str) : str * INIReader :=
  if negb (parsed rd) then ([], rd)
  else
    match GetItems rd section [] with
    | ((0, mapTemp), rd1) =>
        (match mm_find itemName mapTemp with Some v => v | None => [] end, rd1)
    | (_, rd1) => ([], rd1)
    end.

Definition Get_current (rd : INIReader) (itemName : str) : str * INIReader :=
  if negb (str_eqb (current_section rd) [])
  then Get rd (current_section rd) itemName
  else ([], rd).

Definition GetBool (rd : INIReader) (section itemName : str)
  : bool * INIReader :=
  let '(v, rd1) := Get rd section itemName in (str_eqb v (lit "true"), rd1).

(** [GetFirst]: [result[0]] is read whenever [GetAll] did not return -1.
    [None] stands for a read at index 0 of an empty vector, which C++ leaves
    undefined. *)
Definition GetFirst (rd : INIReader) (section itemName : str)
  : option str * INIReader :=
  if negb (parsed rd) then (Some [], rd)
  else
    match GetAll rd section itemName [] with
    | ((rc, result), rd1) =>
        if negb (rc =? -1) then (nth_error result 0, rd1)
        else (Some [], rd1)
    end.

(** ** Mutators *)

Definition Set_ (rd : INIReader) (section itemName itemVal : str)
  : Z * INIReader :=
  let rd0 := if negb (parsed rd) then with_parsed true rd else rd in
  if SectionExist rd0 section then
    let mapTemp := mm_insert itemName itemVal (content_at rd0 section) in
    (0, with_content (map_assign section mapTemp (ini_content rd0)) rd0)
  else
    let mapTemp := mm_insert itemName itemVal [] in
    (0, with_content (map_insert section mapTemp (ini_content rd0)) rd0).

Definition Set_current (rd : INIReader) (itemName itemVal : str)
  : Z * INIReader :=
  if (length (current_section rd) =? 0)%nat then (-1, rd)
  else Set_ rd (current_section rd) itemName itemVal.

Definition SetBool (rd : INIReader) (section itemName : str) (itemVal : bool)
  : Z * INIReader :=
  Set_ rd section itemName (if itemVal then lit "true" else lit "false").

Definition SetBool_current (rd : INIReader) (itemName : str) (itemVal : bool)
  : Z * INIReader :=
  SetBool rd (current_section rd) itemName itemVal.

Definition Erase (rd : INIReader) (section itemName : str) : Z * INIReader :=
  if negb (SectionExist rd section) then (-1, rd)
  else
    let g := content_at rd section in
    let g' := mm_erase itemName g in
    let retVal := Z.of_nat (length g - length g') in
    let rd1 := with_content (map_assign section g' (ini_content rd)) rd in
    if negb (retVal =? 0) && str_eqb (cached_section rd1) section
    then (retVal, with_cache (cached_section rd1) g' rd1)
    else (retVal, rd1).

Definition Erase_current (rd : INIReader) (itemName : str) : Z * INIReader :=
  if negb (str_eqb (current_section rd) [])
  then Erase rd (current_section rd) itemName
  else (-1, rd).

(** What a call leaves: a result and the reader, or the [std::out_of_range]
    that [std::map::at] throws for a name that is not there. *)
Inductive outcome (A : Type) : Type :=
| Returned (a : A)
| Thrown_out_of_range.
Arguments Returned {A} a.
Arguments Thrown_out_of_range {A}.

Definition EraseFirst (rd : INIReader) (section itemName : str)
  : outcome (Z * INIReader) :=
  match map_find section (ini_content rd) with
  | None => Thrown_out_of_range
  | Some mapTemp =>
      match mm_find itemName mapTemp with
      | Some _ =>
          let g' := mm_erase_first itemName mapTemp in
          let rd1 := with_content (map_assign section g' (ini_content rd)) rd in
          if str_eqb (cached_section rd1) section
          then Returned (0, with_cache (cached_section rd1) g' rd1)
          else Returned (0, rd1)
      | None => Returned (-1, rd)
      end
  end.

Definition EraseFirst_current (rd : INIReader) (itemName : str)
  : outcome (Z * INIReader) :=
  if negb (str_eqb (current_section rd) [])
  then EraseFirst rd (current_section rd) itemName
  else Returned (-1, rd).

(** ** Serializer *)

Definition NONAME : str := lit "{NONAME}".

Definition item_to_string (y : str * str) : str :=
  (if negb (str_eqb (fst y) NONAME) then fst y ++ lit " = " else [])
  ++ snd y ++ [LF].

Definition section_to_string (x : str * string_multimap) : str :=
  ("[" :: fst x ++ ["]"; LF]) ++ concat (map item_to_string (snd x)) ++ [LF].

Definition ToString (rd : INIReader) : str :=
  if negb (parsed rd) then []
  else concat (map section_to_string (ini_content rd)).

(** ** Parse *)

(** The locals of [Parse] that live across lines. *)
Record parse_locals := mkLocals {
  inExcludedSection : bool;
  curSection : str;
  itemGroup : string_multimap
}.

(** How the body of the [getline] loop is left. *)
Inductive flow : Type :=
| Next (l : parse_locals) (rd : INIReader)   (* on to the next [getline] *)
| Break (l : parse_locals) (rd : INIReader)  (* [break] *)
| Return_m1 (rd : INIReader).                (* [return -1] *)

(** The guard of line 117: empty lines, lines longer than MAX_LINE_LENGTH
    and comments. *)
Definition ignored_line (strLine : str) : bool :=
  (length strLine =? 0)%nat
  || (MAX_LINE_LENGTH <? length strLine)%nat
  || starts_with [";"] strLine
  || starts_with ["#"] strLine.

(** The block that stores the section just read (lines 134-140 and
    151-157): [None] is its [return -1]. *)
Definition store_section (l : parse_locals) (rd : INIReader)
  : option INIReader :=
  if negb (str_eqb (curSection l) []) && negb (length (itemGroup l) =? 0)%nat
  then
    match map_find (curSection l) (ini_content rd) with
    | Some _ => None
    | None =>
        Some (with_read (read_sections rd ++ [curSection l])
                (with_content
                   (map_insert (curSection l) (itemGroup l) (ini_content rd))
                   rd))
    end
  else Some rd.

(** The test that closes the loop body (line 148). *)
Definition all_read (l : parse_locals) (rd : INIReader) : flow :=
  if negb (length (include_sections rd) =? 0)%nat
     && strs_eqb (include_sections rd) (read_sections rd)
  then Break l rd
  else Next l rd.

(** What the chain of tests of lines 117-144 makes of a line, in the order
    the tests are written: the guard, [regItem], [regSection], anything
    else. *)
Inductive line_class : Type :=
| Ignored
| ItemLine (itemName itemVal : str)
| SectionTitle (thisSection : str)
| OtherLine (strLine : str).

Definition classify (line : str) : line_class :=
  let strLine := strip_cr line in
  if ignored_line strLine then Ignored
  else if regMatch strLine regItem then
    ItemLine (trim (regReplace strLine regItem 1))
      (trim (regReplace strLine regItem 2))
  else if regMatch strLine regSection then
    SectionTitle (regReplace strLine regSection 1)
  else OtherLine strLine.

(** One turn of the loop, on the line [getline] delivered. *)
Definition parse_line (l : parse_locals) (rd : INIReader) (line : str)
  : flow :=
  match classify line with
  | Ignored => Next l rd
  | ItemLine itemName itemVal =>
      if inExcludedSection l then Next l rd
      else if (length (curSection l) =? 0)%nat then Return_m1 rd
      else
        all_read
          (mkLocals (inExcludedSection l) (curSection l)
             (mm_insert itemName itemVal (itemGroup l)))
          rd
  | SectionTitle thisSection =>
      let excluded := chkIgnore rd thisSection in
      match store_section l rd with
      | None => Return_m1 rd
      | Some rd1 => all_read (mkLocals excluded thisSection []) rd1
      end
  | OtherLine strLine =>
      if store_any_line rd && negb (inExcludedSection l)
         && negb (length (curSection l) =? 0)%nat
      then
        all_read
          (mkLocals (inExcludedSection l) (curSection l)
             (mm_insert NONAME strLine (itemGroup l)))
          rd
      else all_read l rd
  end.

(** The loop: what holds when it is left, or the reader at [return -1]. *)
Fixpoint parse_lines (lines : list str) (l : parse_locals) (rd : INIReader)
  : parse_locals * INIReader + INIReader :=
  match lines with
  | [] => inl (l, rd)
  | line :: rest =>
      match parse_line l rd line with
      | Next l1 rd1 => parse_lines rest l1 rd1
      | Break l1 rd1 => inl (l1, rd1)
      | Return_m1 rd1 => inr rd1
      end
  end.

Definition count_char (c : ascii) (s : str) : nat :=
  length (filter (Ascii.eqb c) s).

Section Parsing.

(** The transcoding of misc.h, outside the reader: any function on texts. *)
Variable UTF8ToGBK : str -> str.

(** The lines the [getline] loop reads: the delimiter is chosen on the text
    as given, the text is transcoded if asked for, then split. *)
Definition input_lines (rd : INIReader) (content : str) : list str :=
  let delimiter := if (count_char LF content <=? 1)%nat then CR else LF in
  let content1 := if do_utf8_to_gbk rd then UTF8ToGBK content else content in
  getlines delimiter content1.

Definition Parse (rd : INIReader) (content : str) : Z * INIReader :=
  let rd0 := EraseAll rd in
  match parse_lines (input_lines rd content) (mkLocals false [] []) rd0 with
  | inr rd1 => (-1, rd1)
  | inl (l, rd1) =>
      match store_section l rd1 with
      | None => (-1, rd1)
      | Some rd2 => (0, with_parsed true rd2)
      end
  end.

End Parsing.

(** ** Sample inputs *)

Definition NL : str := [LF].

(** A reader that does not transcode. *)
Definition parse_text (rd : INIReader) (content : str) : Z * INIReader :=
  Parse (fun s => s) rd content.

Definition sample_ab : str :=
  lit "[a]" ++ NL ++ lit "x=1" ++ NL ++ lit "[b]" ++ NL ++ lit "y=2" ++ NL.


(** A text given line by line, each line closed by a line feed. *)
Definition text (ls : list string) : str :=
  concat (map (fun s => lit s ++ NL) ls).

(** The reader left by parsing [[a] / x=1]. *)
Definition reader_a : INIReader :=
  snd (parse_text new_reader (text ["[a]"; "x=1"]%string)).

(** ** Predicates of the statements *)


(** The filter policy of spec 3 for a section name. *)
Definition kept_by_filters (rd : INIReader) (n : str) : Prop :=
  (include_sections rd = [] \/ In n (include_sections rd))
  /\ ~ In n (exclude_sections rd).

(** What the loop of [Parse] leaves alone: it writes [ini_content] and
    [read_sections] only. *)
Definition same_settings (rd rd' : INIReader) : Prop :=
  parsed rd' = parsed rd
  /\ exclude_sections rd' = exclude_sections rd
  /\ include_sections rd' = include_sections rd
  /\ store_any_line rd' = store_any_line rd
  /\ cached_section rd' = cached_section rd
  /\ cached_section_content rd' = cached_section_content rd
  /\ do_utf8_to_gbk rd' = do_utf8_to_gbk rd.

(** ** The lines of one section *)

(** A line that is not a section header. *)
Definition no_header (line : str) : Prop :=
  forall m, classify line <> SectionTitle m.

(** A line the item pattern matches. *)
Definition item_line (line : str) : Prop :=
  exists itemName itemVal, classify line = ItemLine itemName itemVal.

(** The item a line adds to the group of an open section that is not
    skipped: the key and value of an item line, a line of no form under
    [{NONAME}] when [store_any_line] is set. *)
Definition stored_item (rd : INIReader) (line : str) : option (str * str) :=
  match classify line with
  | ItemLine itemName itemVal => Some (itemName, itemVal)
  | OtherLine strLine =>
      if store_any_line rd then Some (NONAME, strLine) else None
  | _ => None
  end.

(** The items of a run of lines, in the order of the lines. *)
Definition items_of (rd : INIReader) (body : list str) : list (str * str) :=
  flat_map (fun line =>
              match stored_item rd line with Some kv => [kv] | None => [] end)
    body.

(** [multimap::insert] of a sequence of items, one after the other. *)
Definition mm_insert_all (items : list (str * str)) (g : string_multimap)
  : string_multimap :=
  fold_left (fun g kv => mm_insert (fst kv) (snd kv) g) items g.

(** Key order of a multimap: no item has a key greater than the key of an
    item after it. *)
Definition key_le (a b : str * str) : Prop := str_ltb (fst b) (fst a) = false.

Definition mm_sorted (g : string_multimap) : Prop := StronglySorted key_le g.

(** The items under one key, in the order of the list. *)
Definition with_key (k : str) (items : list (str * str)) : list (str * str) :=
  filter (fun kv => str_eqb (fst kv) k) items.

(** ** The text ToString writes *)

(** A text without leading or trailing whitespace: what [trim] returns. *)
Definition trimmed (t : str) : Prop :=
  drop_spaces t = t /\ drop_spaces (rev t) = rev t.

(** The line ToString writes for an item whose key is not [{NONAME}]. *)
Definition item_text (kv : str * str) : str := fst kv ++ lit " = " ++ snd kv.

(** The line ToString writes for the name of a section. *)
Definition header_text (n : str) : str := "[" :: n ++ ["]"].

(** The lines of a section in the text of ToString: the header, the items,
    an empty line. *)
Definition section_lines (x : str * string_multimap) : list str :=
  header_text (fst x) :: map item_text (snd x) ++ [[]].

(** Where a stored item came from: a line of no form, stored under
    [{NONAME}], or an item line with this key and value. *)
Definition item_ok (kv : str * str) : Prop :=
  fst kv = NONAME \/ exists line, classify line = ItemLine (fst kv) (snd kv).

(** What Parse stores as a section: a name that a header gave, not empty,
    with a group that is not empty, is in key order and holds items that
    came from lines. *)
Definition section_ok (x : str * string_multimap) : Prop :=
  (exists line, classify line = SectionTitle (fst x))
  /\ fst x <> []
  /\ snd x <> []
  /\ mm_sorted (snd x)
  /\ Forall item_ok (snd x).

(** Name order of the map: every section has a smaller name than the
    sections after it. *)
Definition map_sorted (m : ini_data_struct) : Prop :=
  StronglySorted (fun a b => str_ltb (fst a) (fst b) = true) m.

(** An item that ToString writes as a line Parse reads back as the same
    item: the key is not [{NONAME}] and does not open a comment, and the
    line is within MAX_LINE_LENGTH. *)
Definition item_survives (kv : str * str) : Prop :=
  fst kv <> NONAME
  /\ starts_with [";"] (fst kv) = false
  /\ starts_with ["#"] (fst kv) = false
  /\ (length (fst kv) + 3 + length (snd kv) <= MAX_LINE_LENGTH)%nat.

(** The section the loop has gathered and not yet stored, if any. *)
Definition pending (l : parse_locals) : ini_data_struct :=
  match curSection l, itemGroup l with
  | _ :: _, _ :: _ => [(curSection l, itemGroup l)]
  | _, _ => []
  end.

(** A section whose lines in the text of ToString are read back as the
    section itself by a reader with the filters of [rd]. *)
Definition reads_back (rd : INIReader) (x : str * string_multimap) : Prop :=
  classify (header_text (fst x)) = SectionTitle (fst x)
  /\ forallb dot (header_text (fst x)) = true
  /\ fst x <> []
  /\ snd x <> []
  /\ mm_sorted (snd x)
  /\ chkIgnore rd (fst x) = false
  /\ Forall (fun kv =>
               fst kv <> NONAME
               /\ classify (item_text kv) = ItemLine (fst kv) (snd kv)
               /\ forallb dot (item_text kv) = true)
       (snd x).

(** ** Invariants of the loop of Parse *)

(** The reader a turn of the loop hands on. *)
Definition flow_reader (f : flow) : INIReader :=
  match f with Next _ rd | Break _ rd | Return_m1 rd => rd end.

(** What the loop keeps true about the filter: the group being gathered is
    empty unless the section it belongs to passes the filter, and so does
    every section stored. *)
Definition filter_inv (rd0 : INIReader) (l : parse_locals) (rd : INIReader)
  : Prop :=
  same_settings rd0 rd
  /\ (itemGroup l <> [] -> chkIgnore rd0 (curSection l) = false)
  /\ (inExcludedSection l = false -> curSection l <> [] ->
      chkIgnore rd0 (curSection l) = false)
  /\ (forall x, In x (ini_content rd) -> chkIgnore rd0 (fst x) = false).

Definition filter_post (rd0 rd : INIReader) : Prop :=
  forall x, In x (ini_content rd) -> chkIgnore rd0 (fst x) = false.

(** A section with one item line of MAX_LINE_LENGTH characters. *)
Definition long_text : str :=
  lit "[a]" ++ NL ++ ("k" :: "=" :: repeat "v" 4094) ++ NL.

(** ** More of the reader *)

Definition ItemPrefixExist_current (rd : INIReader) (itemName : str)
  : bool * INIReader :=
  if negb (str_eqb (current_section rd) [])
  then ItemPrefixExist rd (current_section rd) itemName
  else (false, rd).

Definition GetBool_current (rd : INIReader) (itemName : str)
  : bool * INIReader :=
  if negb (str_eqb (current_section rd) [])
  then
    let '(v, rd1) := Get rd (current_section rd) itemName in
    (str_eqb v (lit "true"), rd1)
  else (false, rd).

Definition GetFirst_current (rd : INIReader) (itemName : str)
  : option str * INIReader :=
  if negb (str_eqb (current_section rd) [])
  then GetFirst rd (current_section rd) itemName
  else (Some [], rd).

(** ** Predicates of the further statements *)

(** A text whose last character is not the delimiter. *)
Fixpoint unterminated (d : ascii) (s : str) : bool :=
  match s with
  | [] => false
  | c :: s' =>
      match s' with
      | [] => negb (Ascii.eqb c d)
      | _ :: _ => unterminated d s'
      end
  end.

(** The lines put together again, each followed by the delimiter. *)
Definition join_lines (d : ascii) (ls : list str) : str :=
  concat (map (fun l => l ++ [d]) ls).

(** The lines the guard of the loop lets through, carriage returns
    stripped. *)
Definition read_lines (lines : list str) : list str :=
  filter (fun s => negb (ignored_line s)) (map strip_cr lines).

(** The test that closes the loop body cannot hold before a section is
    stored: there is no include-set, or the log of sections read differs
    from it. *)
Definition no_early_exit (rd : INIReader) : Prop :=
  include_sections rd = []
  \/ strs_eqb (include_sections rd) (read_sections rd) = false.

(** The containers as [std::map] and [std::multimap] keep them: sections in
    name order, the items of each group and of the cached copy in key
    order. *)
Definition ordered (rd : INIReader) : Prop :=
  map_sorted (ini_content rd)
  /\ Forall (fun x => mm_sorted (snd x)) (ini_content rd)
  /\ mm_sorted (cached_section_content rd).

(** The cache does not hold an outdated copy of the section. *)
Definition cache_fresh (rd : INIReader) (section : str) : Prop :=
  cached_section rd = section ->
  cached_section_content rd = content_at rd section.

(** The first value [Get] finds under a key in a group, the empty text if
    there is none. *)
Definition first_value (k : str) (g : string_multimap) : str :=
  match mm_find k g with Some v => v | None => [] end.

(** The values [GetAll] collects from a group for a prefix. *)
Definition prefix_values (p : str) (g : string_multimap) : list str :=
  map snd (filter (fun x => starts_with p (fst x)) g).


(** ** Numbers *)

(** [std::to_string] on a [long], which is an integer in the range of the
    type: its decimal text, with a minus sign before a negative number. *)
Definition to_string (z : Z) : str :=
  lit (NilZero.string_of_int (Z.to_int z)).

Definition SetLong (rd : INIReader) (section itemName : str) (itemVal : Z)
  : Z * INIReader :=
  Set_ rd section itemName (to_string itemVal).

(** Arithmetic on [size_t] wraps around. *)
Definition size_t_wrap (z : Z) : Z := z mod 2 ^ 64.

(** [s.substr(0, n)]: the first [n] bytes, all of [s] when [n] reaches
    its end or beyond. *)
Definition substr0 (n : Z) (s : str) : str :=
  if Z.of_nat (length s) <=? n then s else firstn (Z.to_nat n) s.

Definition SetArray (rd : INIReader) (section itemName separator : str)
    (Array : list Z) : Z * INIReader :=
  let data :=
    fold_left (fun data x => data ++ (to_string x ++ separator)) Array [] in
  let data :=
    substr0 (size_t_wrap (Z.of_nat (length data)
                          - Z.of_nat (length separator))) data in
  Set_ rd section itemName data.

Definition SetArray_current (rd : INIReader) (itemName separator : str)
    (Array : list Z) : Z * INIReader :=
  if str_eqb (current_section rd) [] then (-1, rd)
  else SetArray rd (current_section rd) itemName separator Array.

(** The texts of a list with a separator between each two of them. *)
Fixpoint joined (sep : str) (l : list str) : str :=
  match l with
  | [] => []
  | x :: l' =>
      match l' with
      | [] => x
      | _ :: _ => x ++ sep ++ joined sep l'
      end
  end.

(** The number a decimal text denotes, if it is one. *)
Definition number_of (s : str) : option Z :=
  option_map Z.of_int (NilZero.int_of_string (string_of_list_ascii s)).

(** * Properties *)

(** ** Sample runs (spec 8) *)

Example parse_sample_ab :
  ini_content (snd (parse_text new_reader sample_ab))
  = [(lit "a", [(lit "x", lit "1")]); (lit "b", [(lit "y", lit "2")])]
  /\ fst (parse_text new_reader sample_ab) = 0
  /\ fst (Get (snd (parse_text new_reader sample_ab)) (lit "a") (lit "x"))
     = lit "1".
Proof. vm_compute. repeat split. Qed.

Example parse_sample_duplicate :
  fst (parse_text new_reader
         (lit "[a]" ++ NL ++ lit "x=1" ++ NL ++ lit "[a]" ++ NL ++ lit "z=2" ++ NL))
  = -1.
Proof. vm_compute. reflexivity. Qed.

Example parse_sample_exclude :
  GetSections (snd (parse_text (ExcludeSection new_reader (lit "a")) sample_ab))
  = [lit "b"].
Proof. vm_compute. reflexivity. Qed.

Example setbool_getbool :
  fst (GetBool (snd (SetBool new_reader (lit "s") (lit "k") true))
         (lit "s") (lit "k")) = true.
Proof. vm_compute. reflexivity. Qed.

Example tostring_sample_ab :
  ToString (snd (parse_text new_reader sample_ab))
  = lit "[a]" ++ NL ++ lit "x = 1" ++ NL ++ NL
    ++ lit "[b]" ++ NL ++ lit "y = 2" ++ NL ++ NL.
Proof. vm_compute. reflexivity. Qed.

(** ** Strings and containers *)

Lemma str_eqb_eq (a b : str) : str_eqb a b = true <-> a = b.
Proof.
  revert b; induction a as [|x a IH]; intros [|y b]; simpl;
    try (split; (discriminate || reflexivity)).
  rewrite andb_true_iff, Ascii.eqb_eq, IH.
  split; [intros [-> ->]; reflexivity | intros [= -> ->]; auto].
Qed.

Lemma str_eqb_refl (a : str) : str_eqb a a = true.
Proof. apply str_eqb_eq; reflexivity. Qed.

Lemma str_eqb_neq (a b : str) : str_eqb a b = false <-> a <> b.
Proof.
  rewrite <- str_eqb_eq. destruct (str_eqb a b); split; congruence.
Qed.

Lemma str_eqb_sym (a b : str) : str_eqb a b = str_eqb b a.
Proof.
  destruct (str_eqb a b) eqn:E.
  - apply str_eqb_eq in E; subst; symmetry; apply str_eqb_refl.
  - symmetry; apply str_eqb_neq; apply str_eqb_neq in E; congruence.
Qed.

Lemma length_eqb_0 (a : str) : (length a =? 0)%nat = str_eqb a [].
Proof. destruct a; reflexivity. Qed.

Lemma ascii_compare_refl (x : ascii) : Ascii.compare x x = Eq.
Proof. unfold Ascii.compare. apply N.compare_refl. Qed.

Lemma ascii_compare_eq (x y : ascii) : Ascii.compare x y = Eq <-> x = y.
Proof.
  split; [apply Ascii.compare_eq_iff | intros ->; apply ascii_compare_refl].
Qed.

Lemma ascii_compare_lt_trans (x y z : ascii) :
  Ascii.compare x y = Lt -> Ascii.compare y z = Lt -> Ascii.compare x z = Lt.
Proof.
  unfold Ascii.compare. rewrite !N.compare_lt_iff. lia.
Qed.

Lemma ascii_compare_gt_lt (x y : ascii) :
  Ascii.compare x y = Gt <-> Ascii.compare y x = Lt.
Proof.
  unfold Ascii.compare. rewrite N.compare_gt_iff, N.compare_lt_iff. tauto.
Qed.

Lemma str_compare_eq (a b : str) : str_compare a b = Eq <-> a = b.
Proof.
  revert b; induction a as [|x a IH]; intros [|y b]; simpl;
    try (split; (discriminate || reflexivity)).
  destruct (Ascii.compare x y) eqn:E.
  - apply ascii_compare_eq in E; subst. rewrite IH.
    split; [intros ->; reflexivity | intros [= ->]; reflexivity].
  - split; [discriminate | intros [= -> _]].
    rewrite ascii_compare_refl in E; discriminate.
  - split; [discriminate | intros [= -> _]].
    rewrite ascii_compare_refl in E; discriminate.
Qed.

Lemma str_compare_refl (a : str) : str_compare a a = Eq.
Proof. apply str_compare_eq; reflexivity. Qed.

Lemma str_compare_gt_lt (a b : str) :
  str_compare a b = Gt <-> str_compare b a = Lt.
Proof.
  revert b; induction a as [|x a IH]; intros [|y b]; simpl;
    try (split; (discriminate || reflexivity)).
  destruct (Ascii.compare x y) eqn:E.
  - apply ascii_compare_eq in E; subst. rewrite ascii_compare_refl. apply IH.
  - assert (E' : Ascii.compare y x = Gt) by (apply ascii_compare_gt_lt; exact E).
    rewrite E'. split; discriminate.
  - apply ascii_compare_gt_lt in E. rewrite E. split; reflexivity.
Qed.

Lemma str_compare_lt_trans (a b c : str) :
  str_compare a b = Lt -> str_compare b c = Lt -> str_compare a c = Lt.
Proof.
  revert b c; induction a as [|x a IH]; intros [|y b] [|z c]; simpl;
    try discriminate; try reflexivity.
  destruct (Ascii.compare x y) eqn:Exy; try discriminate;
    destruct (Ascii.compare y z) eqn:Eyz; try discriminate; intros H1 H2.
  - apply ascii_compare_eq in Exy, Eyz; subst.
    rewrite ascii_compare_refl. eapply IH; eauto.
  - apply ascii_compare_eq in Exy; subst. rewrite Eyz. reflexivity.
  - apply ascii_compare_eq in Eyz; subst. rewrite Exy. reflexivity.
  - rewrite (ascii_compare_lt_trans _ _ _ Exy Eyz). reflexivity.
Qed.

Lemma str_ltb_irrefl (a : str) : str_ltb a a = false.
Proof. unfold str_ltb. rewrite str_compare_refl. reflexivity. Qed.

Lemma str_ltb_trans (a b c : str) :
  str_ltb a b = true -> str_ltb b c = true -> str_ltb a c = true.
Proof.
  unfold str_ltb.
  destruct (str_compare a b) eqn:E1; try discriminate.
  destruct (str_compare b c) eqn:E2; try discriminate.
  rewrite (str_compare_lt_trans _ _ _ E1 E2). reflexivity.
Qed.

(** Looking a name up after it was assigned or inserted. *)
Lemma map_find_assign_same (k : str) (g : string_multimap) (m : ini_data_struct) :
  map_find k (map_assign k g m) = Some g.
Proof.
  induction m as [|[k' g'] m IH]; simpl.
  - rewrite str_eqb_refl. reflexivity.
  - destruct (str_compare k k') eqn:E; simpl.
    + apply str_compare_eq in E; subst. rewrite str_eqb_refl. reflexivity.
    + rewrite str_eqb_refl. reflexivity.
    + destruct (str_eqb k' k) eqn:E'; [|exact IH].
      apply str_eqb_eq in E'; subst. rewrite str_compare_refl in E. discriminate.
Qed.

Lemma map_find_insert_same (k : str) (g : string_multimap) (m : ini_data_struct) :
  map_find k m = None -> map_find k (map_insert k g m) = Some g.
Proof.
  induction m as [|[k' g'] m IH]; simpl; intros H.
  - rewrite str_eqb_refl. reflexivity.
  - destruct (str_eqb k' k) eqn:E'; [discriminate|].
    destruct (str_compare k k') eqn:E; simpl.
    + apply str_compare_eq in E; subst. rewrite str_eqb_refl in E'. discriminate.
    + rewrite str_eqb_refl. reflexivity.
    + rewrite E'. auto.
Qed.


Lemma map_find_insert_other (k k0 : str) (g : string_multimap) (m : ini_data_struct) :
  k0 <> k -> map_find k0 (map_insert k g m) = map_find k0 m.
Proof.
  intros Hne. induction m as [|[k' g'] m IH]; simpl.
  - apply str_eqb_neq in Hne. rewrite str_eqb_sym, Hne. reflexivity.
  - destruct (str_compare k k') eqn:E; simpl.
    + reflexivity.
    + assert (str_eqb k k0 = false) as -> by (apply str_eqb_neq; congruence).
      reflexivity.
    + rewrite IH. reflexivity.
Qed.

Lemma map_find_In (k : str) (g : string_multimap) (m : ini_data_struct) :
  map_find k m = Some g -> In (k, g) m.
Proof.
  induction m as [|[k' g'] m IH]; simpl; [discriminate|].
  destruct (str_eqb k' k) eqn:E.
  - apply str_eqb_eq in E; subst. intros [= ->]. left; reflexivity.
  - intros H; right; auto.
Qed.

Lemma In_map_find (k : str) (g : string_multimap) (m : ini_data_struct) :
  In (k, g) m -> exists g', map_find k m = Some g'.
Proof.
  induction m as [|[k' g'] m IH]; simpl; [tauto|].
  intros [[= -> ->]|H].
  - rewrite str_eqb_refl. eauto.
  - destruct (str_eqb k' k); eauto.
Qed.


Lemma In_map_insert (x : str * string_multimap) k g m :
  In x (map_insert k g m) -> x = (k, g) \/ In x m.
Proof.
  induction m as [|[k' g'] m IH]; simpl.
  - intros [<-|[]]; auto.
  - destruct (str_compare k k') eqn:E; simpl.
    + auto.
    + intros [<-|[<-|H]]; auto.
    + intros [<-|H]; auto. destruct (IH H); auto.
Qed.

Lemma mm_insert_not_nil k v g : mm_insert k v g <> [].
Proof.
  destruct g as [|[k' v'] g]; simpl; [discriminate|].
  destruct (str_ltb k k'); discriminate.
Qed.

(** ** The loop of Parse *)

(** An invariant of the loop body holds when the loop is left. *)
Lemma parse_lines_inv_in (P : parse_locals -> INIReader -> Prop)
  (Q : INIReader -> Prop) (lines : list str) :
  (forall l rd line, In line lines -> P l rd ->
     match parse_line l rd line with
     | Next l' rd' | Break l' rd' => P l' rd'
     | Return_m1 rd' => Q rd'
     end) ->
  forall l rd, P l rd ->
    match parse_lines lines l rd with
    | inl (l', rd') => P l' rd'
    | inr rd' => Q rd'
    end.
Proof.
  induction lines as [|line rest IH]; intros Hstep l rd HP; simpl.
  - exact HP.
  - pose proof (Hstep l rd line (or_introl eq_refl) HP) as H1.
    destruct (parse_line l rd line) as [l1 rd1|l1 rd1|rd1];
      [apply IH; [intros; apply Hstep; simpl; auto | exact H1]
      | exact H1 | exact H1].
Qed.

Lemma parse_lines_inv (P : parse_locals -> INIReader -> Prop)
  (Q : INIReader -> Prop) :
  (forall l rd line, P l rd ->
     match parse_line l rd line with
     | Next l' rd' | Break l' rd' => P l' rd'
     | Return_m1 rd' => Q rd'
     end) ->
  forall lines l rd, P l rd ->
    match parse_lines lines l rd with
    | inl (l', rd') => P l' rd'
    | inr rd' => Q rd'
    end.
Proof.
  intros Hstep lines. apply parse_lines_inv_in. intros; apply Hstep; assumption.
Qed.

Lemma same_settings_refl rd : same_settings rd rd.
Proof. repeat split. Qed.

Lemma same_settings_trans a b c :
  same_settings a b -> same_settings b c -> same_settings a c.
Proof.
  unfold same_settings. intros (?&?&?&?&?&?&?) (?&?&?&?&?&?&?).
  repeat split; congruence.
Qed.

Lemma store_section_settings l rd rd' :
  store_section l rd = Some rd' -> same_settings rd rd'.
Proof.
  unfold store_section.
  destruct (negb (str_eqb (curSection l) []) && negb (length (itemGroup l) =? 0)%nat).
  - destruct (map_find (curSection l) (ini_content rd)); [discriminate|].
    intros [= <-]. repeat split.
  - intros [= <-]. apply same_settings_refl.
Qed.

Lemma all_read_cases l rd :
  all_read l rd = Next l rd \/ all_read l rd = Break l rd.
Proof.
  unfold all_read.
  destruct (negb (length (include_sections rd) =? 0)%nat
            && strs_eqb (include_sections rd) (read_sections rd)); auto.
Qed.

Lemma parse_line_settings l rd line :
  same_settings rd (flow_reader (parse_line l rd line)).
Proof.
  unfold parse_line.
  destruct (classify line) as [|n v|n|s].
  - apply same_settings_refl.
  - destruct (inExcludedSection l); [apply same_settings_refl|].
    destruct (length (curSection l) =? 0)%nat; [apply same_settings_refl|].
    match goal with |- context [all_read ?x ?y] =>
      destruct (all_read_cases x y) as [-> | ->] end; apply same_settings_refl.
  - destruct (store_section l rd) as [rd1|] eqn:E; [|apply same_settings_refl].
    apply store_section_settings in E.
    match goal with |- context [all_read ?x ?y] =>
      destruct (all_read_cases x y) as [-> | ->] end; exact E.
  - destruct (store_any_line rd && negb (inExcludedSection l)
              && negb (length (curSection l) =? 0)%nat);
    match goal with |- context [all_read ?x ?y] =>
      destruct (all_read_cases x y) as [-> | ->] end; apply same_settings_refl.
Qed.

Lemma parse_lines_settings lines l rd :
  match parse_lines lines l rd with
  | inl (_, rd') | inr rd' => same_settings rd rd'
  end.
Proof.
  generalize (parse_lines_inv (fun _ r => same_settings rd r)
                (fun r => same_settings rd r)).
  intros H.
  assert (Hs : forall l0 rd0 line, same_settings rd rd0 ->
            match parse_line l0 rd0 line with
            | Next _ rd' | Break _ rd' | Return_m1 rd' => same_settings rd rd'
            end).
  { intros l0 rd0 line H0.
    pose proof (parse_line_settings l0 rd0 line) as H1.
    destruct (parse_line l0 rd0 line); simpl in H1;
      eapply same_settings_trans; eauto. }
  specialize (H Hs lines l rd (same_settings_refl rd)).
  destruct (parse_lines lines l rd) as [[l' rd']|rd']; exact H.
Qed.

(** The outcomes of [Parse]: -1 with the reader as the loop or the last
    store left it, or 0 with the reader marked as parsed. *)
Lemma Parse_cases U rd content :
  (fst (Parse U rd content) = -1
   /\ same_settings (EraseAll rd) (snd (Parse U rd content)))
  \/ (fst (Parse U rd content) = 0
      /\ parsed (snd (Parse U rd content)) = true).
Proof.
  unfold Parse.
  match goal with |- context [parse_lines ?ls ?l0 ?r0] =>
    pose proof (parse_lines_settings ls l0 r0) as H;
    destruct (parse_lines ls l0 r0) as [[l1 rd1]|rd1] end.
  - destruct (store_section l1 rd1) as [rd2|] eqn:E; simpl; auto.
  - simpl; auto.
Qed.

(** ** Parse with no include-set: the loop reads every line *)

Lemma all_read_no_include l rd :
  include_sections rd = [] -> all_read l rd = Next l rd.
Proof. unfold all_read. intros ->. reflexivity. Qed.

Lemma parse_line_no_break l rd line l' rd' :
  include_sections rd = [] -> parse_line l rd line <> Break l' rd'.
Proof.
  intros Hi. unfold parse_line.
  destruct (classify line) as [|n v|n|s].
  - discriminate.
  - destruct (inExcludedSection l); [discriminate|].
    destruct (length (curSection l) =? 0)%nat; [discriminate|].
    rewrite all_read_no_include by exact Hi. discriminate.
  - destruct (store_section l rd) as [rd1|] eqn:E; [|discriminate].
    rewrite all_read_no_include; [discriminate|].
    apply store_section_settings in E. destruct E as (_ & _ & -> & _). exact Hi.
  - destruct (store_any_line rd && negb (inExcludedSection l)
              && negb (length (curSection l) =? 0)%nat);
      rewrite all_read_no_include by exact Hi; discriminate.
Qed.

Lemma parse_line_include l rd line :
  include_sections (flow_reader (parse_line l rd line)) = include_sections rd.
Proof. destruct (parse_line_settings l rd line) as (_ & _ & H & _). exact H. Qed.

(** The loop over two runs of lines is the loop over the first, then over
    the second. *)
Lemma parse_lines_app a b l rd :
  include_sections rd = [] ->
  parse_lines (a ++ b) l rd
  = match parse_lines a l rd with
    | inl (l', rd') => parse_lines b l' rd'
    | inr rd' => inr rd'
    end.
Proof.
  revert l rd. induction a as [|line a IH]; intros l rd Hi; simpl.
  - reflexivity.
  - pose proof (parse_line_include l rd line) as Hinc.
    pose proof (parse_line_no_break l rd line) as Hnb.
    destruct (parse_line l rd line) as [l1 rd1|l1 rd1|rd1]; simpl in Hinc.
    + apply IH. congruence.
    + destruct (Hnb l1 rd1 Hi). reflexivity.
    + reflexivity.
Qed.

Lemma mm_insert_all_app a b g :
  mm_insert_all (a ++ b) g = mm_insert_all b (mm_insert_all a g).
Proof. unfold mm_insert_all. apply fold_left_app. Qed.

Lemma mm_insert_all_not_nil items g :
  items <> [] \/ g <> [] -> mm_insert_all items g <> [].
Proof.
  revert g. induction items as [|[k v] items IH]; intros g H; simpl.
  - destruct H as [H|H]; [destruct H; reflexivity | exact H].
  - apply IH. right. apply mm_insert_not_nil.
Qed.

(** A run of lines without a header, in a section that is open and not
    skipped: the loop adds the items of the lines to the group and changes
    nothing else. *)
Lemma parse_lines_body body l rd :
  include_sections rd = [] ->
  inExcludedSection l = false ->
  curSection l <> [] ->
  Forall no_header body ->
  parse_lines body l rd
  = inl (mkLocals false (curSection l)
           (mm_insert_all (items_of rd body) (itemGroup l)), rd).
Proof.
  intros Hi. revert l. induction body as [|line body IH]; intros l Hx Hc Hb.
  - simpl. destruct l; simpl in *. subst. reflexivity.
  - inversion Hb as [|? ? Hline Hbody]; subst.
    change (items_of rd (line :: body))
      with (match stored_item rd line with Some kv => [kv] | None => [] end
            ++ items_of rd body).
    cbn [parse_lines]. unfold parse_line, stored_item.
    destruct (classify line) as [|n v|n|s] eqn:Ecl.
    + simpl. apply IH; assumption.
    + rewrite Hx, length_eqb_0.
      pose proof Hc as Hc'. apply str_eqb_neq in Hc'. rewrite Hc'.
      rewrite all_read_no_include by exact Hi.
      rewrite IH; simpl; auto.
    + destruct (Hline n). exact Ecl.
    + rewrite Hx, length_eqb_0.
      pose proof Hc as Hc'. apply str_eqb_neq in Hc'. rewrite Hc'.
      destruct (store_any_line rd); simpl;
        rewrite all_read_no_include by exact Hi.
      * rewrite IH; simpl; auto.
      * apply IH; assumption.
Qed.

(** The same run in a section that is skipped: nothing changes. *)
Lemma parse_lines_skipped body l rd :
  include_sections rd = [] ->
  inExcludedSection l = true ->
  Forall no_header body ->
  parse_lines body l rd = inl (l, rd).
Proof.
  intros Hi Hx Hb. induction Hb as [|line body Hline Hbody IH]; simpl.
  - reflexivity.
  - unfold parse_line. destruct (classify line) as [|n v|n|s] eqn:Ecl.
    + exact IH.
    + rewrite Hx. exact IH.
    + destruct (Hline n). exact Ecl.
    + rewrite Hx, andb_false_r. simpl.
      rewrite all_read_no_include by exact Hi. exact IH.
Qed.

(** A header line, with no include-set. *)
Lemma parse_line_header l rd line n :
  include_sections rd = [] ->
  classify line = SectionTitle n ->
  parse_line l rd line
  = match store_section l rd with
    | Some rd1 => Next (mkLocals (chkIgnore rd n) n []) rd1
    | None => Return_m1 rd
    end.
Proof.
  intros Hi Hc. unfold parse_line. rewrite Hc.
  destruct (store_section l rd) as [rd1|] eqn:E; [|reflexivity].
  apply all_read_no_include.
  apply store_section_settings in E. destruct E as (_ & _ & -> & _). exact Hi.
Qed.

Lemma store_section_stores l rd :
  curSection l <> [] -> itemGroup l <> [] ->
  store_section l rd
  = match map_find (curSection l) (ini_content rd) with
    | Some _ => None
    | None =>
        Some (with_read (read_sections rd ++ [curSection l])
                (with_content
                   (map_insert (curSection l) (itemGroup l) (ini_content rd)) rd))
    end.
Proof.
  intros Hc Hg. unfold store_section.
  apply str_eqb_neq in Hc. rewrite Hc.
  destruct (itemGroup l); [destruct Hg; reflexivity | reflexivity].
Qed.

Lemma store_section_skips l rd :
  curSection l = [] \/ itemGroup l = [] -> store_section l rd = Some rd.
Proof.
  unfold store_section. intros [->| ->]; simpl; [reflexivity|].
  rewrite andb_false_r. reflexivity.
Qed.

(** ** Key order of the multimap *)

Lemma str_ltb_false (a b : str) :
  str_ltb a b = false <-> str_ltb b a = true \/ a = b.
Proof.
  unfold str_ltb. destruct (str_compare a b) eqn:E.
  - apply str_compare_eq in E. subst. rewrite str_compare_refl. tauto.
  - split; [discriminate|]. intros [H| ->].
    + destruct (str_compare b a) eqn:E'; try discriminate.
      pose proof (str_compare_lt_trans _ _ _ E E') as F.
      rewrite str_compare_refl in F. discriminate.
    + rewrite str_compare_refl in E. discriminate.
  - apply str_compare_gt_lt in E. rewrite E. tauto.
Qed.

Lemma str_ltb_asym (a b : str) : str_ltb a b = true -> str_ltb b a = false.
Proof. intros H. apply str_ltb_false. auto. Qed.

Lemma str_le_trans (a b c : str) :
  str_ltb b a = false -> str_ltb c b = false -> str_ltb c a = false.
Proof.
  intros H1 H2. destruct (str_ltb c a) eqn:E; [|reflexivity].
  apply str_ltb_false in H1, H2.
  destruct H1 as [H1| ->]; destruct H2 as [H2| ->]; try congruence.
  - pose proof (str_ltb_trans _ _ _ (str_ltb_trans _ _ _ H1 H2) E) as F.
    rewrite str_ltb_irrefl in F. discriminate.
  - pose proof (str_ltb_trans _ _ _ H1 E) as F.
    rewrite str_ltb_irrefl in F. discriminate.
  - pose proof (str_ltb_trans _ _ _ H2 E) as F.
    rewrite str_ltb_irrefl in F. discriminate.
  - rewrite str_ltb_irrefl in E. discriminate.
Qed.

Lemma str_lt_le_trans (a b c : str) :
  str_ltb a b = true -> str_ltb c b = false -> str_ltb a c = true.
Proof.
  intros H1 H2. apply str_ltb_false in H2. destruct H2 as [H2| ->].
  - eapply str_ltb_trans; eauto.
  - exact H1.
Qed.

Lemma Forall_mm_insert (P : str * str -> Prop) k v g :
  P (k, v) -> Forall P g -> Forall P (mm_insert k v g).
Proof.
  intros Hp Hg. induction Hg as [|[k' v'] g Hx Hg IH]; simpl.
  - constructor; [exact Hp | constructor].
  - destruct (str_ltb k k'); repeat constructor; assumption.
Qed.

Lemma mm_insert_sorted k v g : mm_sorted g -> mm_sorted (mm_insert k v g).
Proof.
  unfold mm_sorted. induction 1 as [|[k' v'] g Hs IH Hall]; simpl.
  - repeat constructor.
  - destruct (str_ltb k k') eqn:E.
    + constructor; [constructor; assumption|].
      constructor; [apply str_ltb_asym; exact E|].
      revert Hall. apply Forall_impl. intros [k2 v2]. unfold key_le. simpl.
      intros H. apply (str_le_trans _ k'); [apply str_ltb_asym; exact E | exact H].
    + constructor; [exact IH|].
      apply Forall_mm_insert; [exact E | exact Hall].
Qed.

Lemma mm_insert_all_sorted items g :
  mm_sorted g -> mm_sorted (mm_insert_all items g).
Proof.
  revert g. induction items as [|[k v] items IH]; intros g Hg; simpl.
  - exact Hg.
  - apply IH. apply mm_insert_sorted. exact Hg.
Qed.

(** No item of a sorted group lies under a key smaller than its first. *)
Lemma with_key_below k k' v' g :
  mm_sorted ((k', v') :: g) -> str_ltb k k' = true ->
  with_key k ((k', v') :: g) = [].
Proof.
  intros Hs Hlt. inversion Hs as [|? ? _ Hall]; subst.
  assert (Hall' : Forall (key_le (k', v')) ((k', v') :: g)).
  { constructor; [apply str_ltb_irrefl | exact Hall]. }
  clear Hs Hall. unfold with_key. induction Hall' as [|[k2 v2] g2 Hx _ IH]; simpl.
  - reflexivity.
  - unfold key_le in Hx. simpl in Hx.
    destruct (str_eqb k2 k) eqn:E; [|exact IH].
    apply str_eqb_eq in E. subst k2. congruence.
Qed.

Lemma with_key_cons k0 x g :
  with_key k0 (x :: g)
  = (if str_eqb (fst x) k0 then [x] else []) ++ with_key k0 g.
Proof. unfold with_key. simpl. destruct (str_eqb (fst x) k0); reflexivity. Qed.

(** [multimap::insert] puts the new item after the items of its key and
    leaves the items of every other key as they are. *)
Lemma with_key_mm_insert k0 k v g :
  mm_sorted g ->
  with_key k0 (mm_insert k v g) = with_key k0 g ++ with_key k0 [(k, v)].
Proof.
  induction g as [|[k' v'] g IH]; intros Hs.
  - reflexivity.
  - cbn [mm_insert]. destruct (str_ltb k k') eqn:E.
    + rewrite (with_key_cons k0 (k, v) ((k', v') :: g)).
      rewrite (with_key_cons k0 (k, v) []). cbn [fst].
      destruct (str_eqb k k0) eqn:Ek.
      * apply str_eqb_eq in Ek. subst k0.
        rewrite (with_key_below k k' v' g Hs E). reflexivity.
      * rewrite !app_nil_r. reflexivity.
    + inversion Hs as [|? ? Hs' Hall]; subst.
      rewrite (with_key_cons k0 (k', v') (mm_insert k v g)).
      rewrite (with_key_cons k0 (k', v') g).
      rewrite (IH Hs'). rewrite app_assoc. reflexivity.
Qed.

Lemma with_key_mm_insert_all k0 items g :
  mm_sorted g ->
  with_key k0 (mm_insert_all items g) = with_key k0 g ++ with_key k0 items.
Proof.
  revert g. induction items as [|[k v] items IH]; intros g Hs.
  - simpl. rewrite app_nil_r. reflexivity.
  - cbn [mm_insert_all fold_left fst snd].
    change (fold_left (fun g kv => mm_insert (fst kv) (snd kv) g) items
              (mm_insert k v g))
      with (mm_insert_all items (mm_insert k v g)).
    rewrite (IH _ (mm_insert_sorted k v g Hs)).
    rewrite (with_key_mm_insert k0 k v g Hs).
    rewrite (with_key_cons k0 (k, v) items), (with_key_cons k0 (k, v) []).
    rewrite app_nil_r, <- app_assoc. reflexivity.
Qed.

(** A new item whose key is not below any key of the group goes last. *)
Lemma mm_insert_last k v g :
  Forall (fun x => str_ltb k (fst x) = false) g ->
  mm_insert k v g = g ++ [(k, v)].
Proof.
  induction 1 as [|[k' v'] g Hx _ IH]; simpl.
  - reflexivity.
  - simpl in Hx. rewrite Hx, IH. reflexivity.
Qed.

(** Inserting the items of a sorted group in their order gives the group
    again. *)
Lemma mm_insert_all_sorted_id g g0 :
  mm_sorted (g0 ++ g) -> mm_insert_all g g0 = g0 ++ g.
Proof.
  revert g0. induction g as [|[k v] g IH]; intros g0 Hs.
  - simpl. rewrite app_nil_r. reflexivity.
  - cbn [mm_insert_all fold_left fst snd].
    change (fold_left (fun g kv => mm_insert (fst kv) (snd kv) g) g
              (mm_insert k v g0))
      with (mm_insert_all g (mm_insert k v g0)).
    assert (Hlast : mm_insert k v g0 = g0 ++ [(k, v)]).
    { apply mm_insert_last. clear IH.
      induction g0 as [|[k' v'] g0 IH0]; [constructor|].
      simpl in Hs. inversion Hs as [|? ? Hs' Hall]; subst.
      constructor; [|apply IH0; exact Hs'].
      rewrite Forall_app in Hall. destruct Hall as [_ Hall].
      inversion Hall as [|? ? Hk _]; subst. exact Hk. }
    rewrite Hlast. rewrite IH; rewrite <- app_assoc; [reflexivity | exact Hs].
Qed.

(** ** trim *)

Lemma drop_spaces_idem s : drop_spaces (drop_spaces s) = drop_spaces s.
Proof.
  induction s as [|c s IH]; simpl; [reflexivity|].
  destruct (is_space c) eqn:E; [exact IH|]. simpl. rewrite E. reflexivity.
Qed.

(** What [drop_spaces] leaves is a suffix; what it drops is whitespace. *)
Lemma drop_spaces_split s :
  exists sp, s = sp ++ drop_spaces s /\ forallb is_space sp = true.
Proof.
  induction s as [|c s (sp & Hs & Hsp)]; simpl.
  - exists []. split; reflexivity.
  - destruct (is_space c) eqn:E.
    + exists (c :: sp). simpl. rewrite E, Hsp. split; [f_equal; exact Hs | reflexivity].
    + exists []. split; reflexivity.
Qed.

Lemma drop_spaces_app_fixed a b :
  a <> [] -> drop_spaces a = a -> drop_spaces (a ++ b) = a ++ b.
Proof.
  destruct a as [|c a]; [intros H; destruct H; reflexivity|].
  intros _. simpl. destruct (is_space c) eqn:E; [|reflexivity].
  intros H. exfalso.
  destruct (drop_spaces_split a) as (sp & Hs & _).
  rewrite H in Hs. apply (f_equal (@length ascii)) in Hs.
  rewrite length_app in Hs. simpl in Hs. lia.
Qed.

Lemma trim_trimmed s : trimmed (trim s).
Proof.
  unfold trimmed, trim.
  set (y := drop_spaces s).
  set (z := drop_spaces (rev y)).
  assert (Hy : drop_spaces y = y) by apply drop_spaces_idem.
  assert (Hz : drop_spaces z = z) by apply drop_spaces_idem.
  split; [|rewrite rev_involutive; exact Hz].
  destruct (drop_spaces_split (rev y)) as (sp & Hs & _). fold z in Hs.
  assert (Hy' : y = rev z ++ rev sp).
  { rewrite <- (rev_involutive y), Hs, rev_app_distr. reflexivity. }
  destruct (rev z) as [|c t] eqn:Erz; [reflexivity|].
  rewrite Hy' in Hy. simpl in Hy. simpl.
  destruct (is_space c) eqn:E; [|reflexivity].
  exfalso.
  destruct (drop_spaces_split (t ++ rev sp)) as (sp' & Hs' & _).
  rewrite Hy in Hs'. apply (f_equal (@length ascii)) in Hs'.
  rewrite !length_app in Hs'. simpl in Hs'. rewrite !length_app in Hs'. lia.
Qed.

Lemma trim_of_trimmed t : trimmed t -> trim t = t.
Proof.
  intros [H1 H2]. unfold trim. rewrite H1, H2. apply rev_involutive.
Qed.

(** A blank before or after a trimmed text is trimmed away. *)
Lemma trim_space_before t : trimmed t -> trim (" " :: t) = t.
Proof. intros H. unfold trim. simpl. apply (trim_of_trimmed t H). Qed.

Lemma trim_space_after t : trimmed t -> trim (t ++ [" "]) = t.
Proof.
  intros [H1 H2]. unfold trim.
  destruct t as [|c t]; [reflexivity|].
  rewrite (drop_spaces_app_fixed (c :: t) [" "]) by (discriminate || exact H1).
  assert (Hr : rev ((c :: t) ++ [" "]) = " " :: rev (c :: t))
    by (rewrite rev_app_distr; reflexivity).
  rewrite Hr.
  change (drop_spaces (" " :: rev (c :: t))) with (drop_spaces (rev (c :: t))).
  rewrite H2. apply rev_involutive.
Qed.

(** ** The lines of a text *)

Lemma getlines_line d s rest :
  forallb (fun c => negb (Ascii.eqb c d)) s = true ->
  getlines d (s ++ d :: rest) = s :: getlines d rest.
Proof.
  induction s as [|c s IH]; simpl.
  - intros _. rewrite Ascii.eqb_refl. reflexivity.
  - rewrite andb_true_iff, negb_true_iff. intros [Hc Hs].
    rewrite Hc, (IH Hs). reflexivity.
Qed.

Lemma strip_cr_fixed s :
  forallb dot s = true -> strip_cr s = s.
Proof.
  unfold strip_cr. induction s as [|c s IH]; simpl; [reflexivity|].
  rewrite andb_true_iff. unfold dot at 1. rewrite andb_true_iff.
  intros [[_ Hc] Hs]. rewrite Hc, (IH Hs). reflexivity.
Qed.

Lemma dot_no_LF s :
  forallb dot s = true -> forallb (fun c => negb (Ascii.eqb c LF)) s = true.
Proof.
  induction s as [|c s IH]; simpl; [reflexivity|].
  rewrite !andb_true_iff. unfold dot at 1. rewrite andb_true_iff.
  intros [[Hc _] Hs]. auto.
Qed.

Lemma forallb_dot_app a b :
  forallb dot (a ++ b) = forallb dot a && forallb dot b.
Proof. apply forallb_app. Qed.

Lemma forallb_drop_spaces (P : ascii -> bool) s :
  forallb P s = true -> forallb P (drop_spaces s) = true.
Proof.
  induction s as [|c s IH]; simpl; [reflexivity|].
  rewrite andb_true_iff. intros [Hc Hs].
  destruct (is_space c); [auto|]. simpl. rewrite Hc, Hs. reflexivity.
Qed.

Lemma forallb_rev (P : ascii -> bool) s :
  forallb P (rev s) = forallb P s.
Proof.
  induction s as [|c s IH]; simpl; [reflexivity|].
  rewrite forallb_app, IH. simpl. rewrite andb_true_r. apply andb_comm.
Qed.

Lemma forallb_trim (P : ascii -> bool) s :
  forallb P s = true -> forallb P (trim s) = true.
Proof.
  intros H. unfold trim. rewrite forallb_rev.
  apply forallb_drop_spaces. rewrite forallb_rev.
  apply forallb_drop_spaces. exact H.
Qed.

Lemma forallb_before_eq (P : ascii -> bool) s :
  forallb P s = true -> forallb P (before_eq s) = true.
Proof.
  induction s as [|c s IH]; simpl; [reflexivity|].
  rewrite andb_true_iff. intros [Hc Hs].
  destruct (Ascii.eqb c "="); [reflexivity|]. simpl. rewrite Hc. auto.
Qed.

Lemma forallb_after_eq (P : ascii -> bool) s :
  forallb P s = true -> forallb P (after_eq s) = true.
Proof.
  induction s as [|c s IH]; simpl; [reflexivity|].
  rewrite andb_true_iff. intros [Hc Hs].
  destruct (Ascii.eqb c "="); auto.
Qed.

Lemma before_eq_no_eq s :
  forallb (fun c => negb (Ascii.eqb c "=")) (before_eq s) = true.
Proof.
  induction s as [|c s IH]; simpl; [reflexivity|].
  destruct (Ascii.eqb c "=") eqn:E; [reflexivity|]. simpl. rewrite E. exact IH.
Qed.

Lemma before_eq_app k rest :
  forallb (fun c => negb (Ascii.eqb c "=")) k = true ->
  before_eq (k ++ "=" :: rest) = k /\ after_eq (k ++ "=" :: rest) = rest.
Proof.
  induction k as [|c k IH]; simpl.
  - intros _. split; reflexivity.
  - rewrite andb_true_iff, negb_true_iff. intros [Hc Hk]. rewrite Hc.
    destruct (IH Hk) as [-> ->]. split; reflexivity.
Qed.

(** ** Reading back the lines ToString writes *)

Lemma strip_cr_idem s : strip_cr (strip_cr s) = strip_cr s.
Proof.
  unfold strip_cr. induction s as [|c s IH]; simpl; [reflexivity|].
  destruct (negb (Ascii.eqb c CR)) eqn:E; simpl; [rewrite E, IH|]; auto.
Qed.

Lemma classify_strip_cr line : classify (strip_cr line) = classify line.
Proof. unfold classify. rewrite strip_cr_idem. reflexivity. Qed.

Lemma classify_title_inv line n :
  classify line = SectionTitle n ->
  ignored_line (strip_cr line) = false
  /\ regMatch (strip_cr line) regItem = false
  /\ regMatch (strip_cr line) regSection = true
  /\ n = removelast (tl (strip_cr line)).
Proof.
  unfold classify.
  destruct (ignored_line (strip_cr line)); [discriminate|].
  destruct (regMatch (strip_cr line) regItem); [discriminate|].
  destruct (regMatch (strip_cr line) regSection); [|discriminate].
  intros [= <-]. auto.
Qed.

Lemma classify_item_inv line k v :
  classify line = ItemLine k v ->
  ignored_line (strip_cr line) = false
  /\ regMatch (strip_cr line) regItem = true
  /\ k = trim (before_eq (strip_cr line))
  /\ v = trim (after_eq (strip_cr line)).
Proof.
  unfold classify.
  destruct (ignored_line (strip_cr line)); [discriminate|].
  destruct (regMatch (strip_cr line) regItem).
  - intros [= <- <-]. auto.
  - destruct (regMatch (strip_cr line) regSection); discriminate.
Qed.

(** The header ToString writes for a name Parse stored is the header line
    Parse read, carriage returns apart. *)
Lemma header_text_of_title line n :
  classify line = SectionTitle n -> header_text n = strip_cr line.
Proof.
  intros H. apply classify_title_inv in H. destruct H as (_ & _ & Hm & ->).
  destruct (strip_cr line) as [|c r]; [discriminate|].
  simpl in Hm. rewrite !andb_true_iff in Hm. destruct Hm as [[Hc He] _].
  apply Ascii.eqb_eq in Hc. subst c. unfold header_text. simpl tl. f_equal.
  unfold ends_with_bracket in He.
  destruct (rev r) as [|c t] eqn:Er; [discriminate|].
  apply Ascii.eqb_eq in He. subst c.
  assert (Hr : r = rev t ++ ["]"]).
  { rewrite <- (rev_involutive r), Er. reflexivity. }
  rewrite Hr, removelast_last. reflexivity.
Qed.

Lemma classify_header_text line n :
  classify line = SectionTitle n ->
  classify (header_text n) = SectionTitle n
  /\ forallb dot (header_text n) = true.
Proof.
  intros H. rewrite (header_text_of_title line n H), classify_strip_cr.
  split; [exact H|].
  apply classify_title_inv in H. destruct H as (_ & _ & Hm & _).
  destruct (strip_cr line) as [|c r]; [discriminate|].
  simpl in Hm. rewrite !andb_true_iff in Hm. destruct Hm as [[Hc _] Hd].
  apply Ascii.eqb_eq in Hc. subst c. simpl. exact Hd.
Qed.

(** The key and the value of an item line. *)
Lemma classify_item_facts line k v :
  classify line = ItemLine k v ->
  forallb dot k = true /\ forallb dot v = true
  /\ forallb (fun c => negb (Ascii.eqb c "=")) k = true
  /\ trimmed k /\ trimmed v.
Proof.
  intros H. apply classify_item_inv in H. destruct H as (_ & Hm & -> & ->).
  simpl in Hm. rewrite andb_true_iff in Hm. destruct Hm as [Hd _].
  split; [apply forallb_trim, forallb_before_eq, Hd|].
  split; [apply forallb_trim, forallb_after_eq, Hd|].
  split; [apply forallb_trim, before_eq_no_eq|].
  split; apply trim_trimmed.
Qed.

Lemma item_text_length kv :
  length (item_text kv) = (length (fst kv) + 3 + length (snd kv))%nat.
Proof. unfold item_text. rewrite !length_app. simpl. lia. Qed.

Lemma starts_with_item_text c kv :
  Ascii.eqb c " " = false ->
  starts_with [c] (fst kv) = false ->
  starts_with [c] (item_text kv) = false.
Proof.
  unfold item_text. destruct (fst kv) as [|c' k]; simpl.
  - intros ->. reflexivity.
  - auto.
Qed.

Lemma item_text_dot kv :
  forallb dot (fst kv) = true -> forallb dot (snd kv) = true ->
  forallb dot (item_text kv) = true.
Proof.
  intros Hk Hv. unfold item_text. rewrite !forallb_app, Hk, Hv. reflexivity.
Qed.

(** An item that came from an item line and survives is read back, from
    the line ToString writes for it, as the same item. *)
Lemma classify_item_text kv :
  (exists line, classify line = ItemLine (fst kv) (snd kv)) ->
  item_survives kv ->
  classify (item_text kv) = ItemLine (fst kv) (snd kv)
  /\ forallb dot (item_text kv) = true.
Proof.
  intros [line Hl] (_ & Hsc & Hha & Hlen).
  destruct (classify_item_facts _ _ _ Hl) as (Hdk & Hdv & Hne & Htk & Htv).
  pose proof (item_text_dot kv Hdk Hdv) as Hd.
  split; [|exact Hd].
  unfold classify. rewrite (strip_cr_fixed _ Hd).
  assert (Hig : ignored_line (item_text kv) = false).
  { unfold ignored_line.
    rewrite (starts_with_item_text ";" kv eq_refl Hsc).
    rewrite (starts_with_item_text "#" kv eq_refl Hha).
    rewrite !orb_false_r.
    rewrite item_text_length.
    apply orb_false_iff. split.
    - apply Nat.eqb_neq. lia.
    - apply Nat.ltb_ge. exact Hlen. }
  rewrite Hig.
  assert (Hsplit : item_text kv = (fst kv ++ [" "]) ++ "=" :: " " :: snd kv).
  { unfold item_text. rewrite <- app_assoc. reflexivity. }
  assert (Hm : regMatch (item_text kv) regItem = true).
  { simpl. rewrite Hd. rewrite Hsplit, existsb_app. simpl.
    rewrite orb_true_r. reflexivity. }
  rewrite Hm. simpl regReplace.
  assert (Hne' : forallb (fun c => negb (Ascii.eqb c "=")) (fst kv ++ [" "]) = true).
  { rewrite forallb_app, Hne. reflexivity. }
  rewrite Hsplit.
  destruct (before_eq_app (fst kv ++ [" "]) (" " :: snd kv) Hne') as [-> ->].
  rewrite (trim_space_after _ Htk), (trim_space_before _ Htv). reflexivity.
Qed.

Lemma item_to_string_text kv :
  fst kv <> NONAME -> item_to_string kv = item_text kv ++ [LF].
Proof.
  intros H. unfold item_to_string, item_text.
  apply str_eqb_neq in H. rewrite H. simpl negb. cbv iota.
  rewrite <- !app_assoc. reflexivity.
Qed.

(** The lines of the text ToString writes for the sections [m]. *)
Lemma getlines_sections m :
  Forall (fun x =>
            forallb dot (header_text (fst x)) = true
            /\ Forall (fun kv => fst kv <> NONAME
                                 /\ forallb dot (item_text kv) = true) (snd x))
    m ->
  getlines LF (concat (map section_to_string m)) = flat_map section_lines m.
Proof.
  induction 1 as [|[n g] m [Hn Hg] _ IH]; [reflexivity|].
  cbn [map concat flat_map]. rewrite <- IH. clear IH.
  generalize (concat (map section_to_string m)). intros rest.
  unfold section_to_string, section_lines. cbn [fst snd] in *.
  change ("[" :: n ++ ["]"; LF]) with ("[" :: n ++ ["]"] ++ [LF]).
  change ("[" :: n ++ ["]"] ++ [LF]) with (("[" :: n) ++ ["]"] ++ [LF]).
  rewrite (app_assoc ("[" :: n) ["]"] [LF]).
  change (("[" :: n) ++ ["]"]) with (header_text n).
  rewrite <- !app_assoc. cbn [app].
  rewrite (getlines_line LF (header_text n) _ (dot_no_LF _ Hn)).
  cbn [app]. f_equal.
  rewrite <- (app_assoc (map item_text g) [[]]). cbn [app].
  induction Hg as [|kv g [Hk Hd] _ IH]; cbn [map concat app].
  - cbn [getlines]. rewrite Ascii.eqb_refl. reflexivity.
  - rewrite (item_to_string_text kv Hk). rewrite <- !app_assoc. cbn [app].
    rewrite (getlines_line LF (item_text kv) _ (dot_no_LF _ Hd)).
    f_equal. exact IH.
Qed.

(** The text of one section or more holds more than one line feed. *)
Lemma count_LF_sections x m :
  (2 <= count_char LF (concat (map section_to_string (x :: m))))%nat.
Proof.
  unfold count_char. cbn [map concat]. unfold section_to_string.
  rewrite !filter_app, !length_app.
  change ("[" :: fst x ++ ["]"; LF]) with (("[" :: fst x) ++ ["]"; LF]).
  rewrite filter_app, length_app.
  assert (H1 : length (filter (Ascii.eqb LF) ["]"; LF]) = 1%nat) by reflexivity.
  assert (H2 : length (filter (Ascii.eqb LF) [LF]) = 1%nat) by reflexivity.
  rewrite H1, H2. lia.
Qed.

(** ** What Parse stores *)

Lemma str_ltb_compare a b : str_ltb a b = true <-> str_compare a b = Lt.
Proof. unfold str_ltb. destruct (str_compare a b); split; congruence. Qed.

Lemma Forall_map_insert (P : str * string_multimap -> Prop) k g m :
  P (k, g) -> Forall P m -> Forall P (map_insert k g m).
Proof.
  intros Hp Hm. induction Hm as [|[k' g'] m Hx Hm IH]; simpl.
  - constructor; [exact Hp | constructor].
  - destruct (str_compare k k'); repeat constructor; assumption.
Qed.

Lemma map_insert_sorted k g m : map_sorted m -> map_sorted (map_insert k g m).
Proof.
  unfold map_sorted. induction 1 as [|[k' g'] m Hs IH Hall]; simpl.
  - repeat constructor.
  - destruct (str_compare k k') eqn:E.
    + constructor; assumption.
    + constructor; [constructor; assumption|].
      apply str_ltb_compare in E.
      constructor; [exact E|].
      revert Hall. apply Forall_impl. intros [k2 g2]. simpl.
      apply str_ltb_trans. exact E.
    + constructor; [exact IH|].
      apply Forall_map_insert; [|exact Hall].
      simpl. apply str_ltb_compare. apply str_compare_gt_lt. exact E.
Qed.

Lemma map_insert_append k g m :
  Forall (fun x => str_ltb (fst x) k = true) m ->
  map_insert k g m = m ++ [(k, g)].
Proof.
  induction 1 as [|[k' g'] m Hx _ IH]; simpl; [reflexivity|].
  simpl in Hx. apply str_ltb_compare, str_compare_gt_lt in Hx.
  rewrite Hx, IH. reflexivity.
Qed.

Lemma map_find_below k m :
  Forall (fun x => str_ltb (fst x) k = true) m -> map_find k m = None.
Proof.
  induction 1 as [|[k' g'] m Hx _ IH]; simpl; [reflexivity|].
  simpl in Hx. destruct (str_eqb k' k) eqn:E; [|exact IH].
  apply str_eqb_eq in E. subst. rewrite str_ltb_irrefl in Hx. discriminate.
Qed.

Lemma map_sorted_app_below a x b :
  map_sorted (a ++ x :: b) ->
  Forall (fun y => str_ltb (fst y) (fst x) = true) a.
Proof.
  unfold map_sorted. induction a as [|y a IH]; simpl; intros H.
  - constructor.
  - inversion H as [|? ? Hs Hall]; subst. constructor; [|apply IH; exact Hs].
    rewrite Forall_app in Hall. destruct Hall as [_ Hall].
    inversion Hall; assumption.
Qed.

Lemma store_section_doc_ok l rd rd' :
  store_section l rd = Some rd' ->
  map_sorted (ini_content rd) -> Forall section_ok (ini_content rd) ->
  mm_sorted (itemGroup l) -> Forall item_ok (itemGroup l) ->
  (curSection l = [] \/ exists line, classify line = SectionTitle (curSection l)) ->
  map_sorted (ini_content rd') /\ Forall section_ok (ini_content rd').
Proof.
  unfold store_section.
  destruct (str_eqb (curSection l) []) eqn:Ec; simpl.
  { intros [= <-]; auto. }
  destruct (itemGroup l) as [|kv g] eqn:Eg; simpl.
  { intros [= <-]; auto. }
  destruct (map_find (curSection l) (ini_content rd)); [discriminate|].
  intros [= <-] Hs Hok Hgs Hgi Hc. simpl.
  apply str_eqb_neq in Ec.
  split; [apply map_insert_sorted; exact Hs|].
  apply Forall_map_insert; [|exact Hok].
  destruct Hc as [Hc|Hc]; [contradiction|].
  unfold section_ok. simpl. repeat split; auto. discriminate.
Qed.

Lemma parse_lines_doc_ok lines l rd :
  map_sorted (ini_content rd) -> Forall section_ok (ini_content rd) ->
  mm_sorted (itemGroup l) -> Forall item_ok (itemGroup l) ->
  (curSection l = [] \/ exists line, classify line = SectionTitle (curSection l)) ->
  match parse_lines lines l rd with
  | inl (l', rd') =>
      map_sorted (ini_content rd') /\ Forall section_ok (ini_content rd')
      /\ mm_sorted (itemGroup l') /\ Forall item_ok (itemGroup l')
      /\ (curSection l' = []
          \/ exists line, classify line = SectionTitle (curSection l'))
  | inr _ => True
  end.
Proof.
  intros H1 H2 H3 H4 H5.
  apply (parse_lines_inv
           (fun l rd =>
              map_sorted (ini_content rd) /\ Forall section_ok (ini_content rd)
              /\ mm_sorted (itemGroup l) /\ Forall item_ok (itemGroup l)
              /\ (curSection l = []
                  \/ exists line, classify line = SectionTitle (curSection l)))
           (fun _ => True)); [|auto].
  clear. intros l rd line (H1 & H2 & H3 & H4 & H5). unfold parse_line.
  destruct (classify line) as [|k v|n|s] eqn:Ecl.
  - auto.
  - destruct (inExcludedSection l); [auto|].
    destruct (length (curSection l) =? 0)%nat; [auto|].
    assert (Hi : item_ok (k, v)) by (right; exists line; exact Ecl).
    match goal with |- context [all_read ?x ?y] =>
      destruct (all_read_cases x y) as [-> | ->] end; simpl;
      (repeat split; auto; [apply mm_insert_sorted; exact H3
                           | apply Forall_mm_insert; assumption]).
  - destruct (store_section l rd) as [rd1|] eqn:E; [|auto].
    destruct (store_section_doc_ok _ _ _ E H1 H2 H3 H4 H5) as [Hs Hok].
    match goal with |- context [all_read ?x ?y] =>
      destruct (all_read_cases x y) as [-> | ->] end; simpl;
      (repeat split; auto; [constructor | right; exists line; exact Ecl]).
  - assert (Hi : item_ok (NONAME, s)) by (left; reflexivity).
    destruct (store_any_line rd && negb (inExcludedSection l)
              && negb (length (curSection l) =? 0)%nat);
    match goal with |- context [all_read ?x ?y] =>
      destruct (all_read_cases x y) as [-> | ->] end; simpl; auto;
      (repeat split; auto; [apply mm_insert_sorted; exact H3
                           | apply Forall_mm_insert; assumption]).
Qed.

(** The mapping Parse leaves is in name order, and each of its sections is
    as Parse stores them. *)
Lemma Parse_doc_ok U rd content rd' :
  Parse U rd content = (0, rd') ->
  map_sorted (ini_content rd') /\ Forall section_ok (ini_content rd')
  /\ same_settings (with_parsed true rd) rd'.
Proof.
  unfold Parse.
  pose proof (parse_lines_doc_ok (input_lines U rd content)
                (mkLocals false [] []) (EraseAll rd)) as H.
  pose proof (parse_lines_settings (input_lines U rd content)
                (mkLocals false [] []) (EraseAll rd)) as Hs.
  destruct (parse_lines _ _ _) as [[l1 r1]|r1]; [|discriminate].
  destruct (store_section l1 r1) as [r2|] eqn:E; [|discriminate].
  intros [= <-]. simpl.
  assert (H0 : map_sorted (@nil (str * string_multimap))) by constructor.
  destruct (H H0 (Forall_nil _) (SSorted_nil _) (Forall_nil _) (or_introl eq_refl))
    as (H1 & H2 & H3 & H4 & H5).
  destruct (store_section_doc_ok _ _ _ E H1 H2 H3 H4 H5) as [Hm Hok].
  split; [exact Hm|]. split; [exact Hok|].
  pose proof (same_settings_trans _ _ _ Hs (store_section_settings _ _ _ E))
    as (_ & Q2 & Q3 & Q4 & Q5 & Q6 & Q7).
  repeat split; assumption.
Qed.


(** ** A failed Parse *)

Lemma SectionExist_In rd n :
  SectionExist rd n = true <-> exists g, In (n, g) (ini_content rd).
Proof.
  unfold SectionExist. split.
  - destruct (map_find n (ini_content rd)) as [g|] eqn:E; [|discriminate].
    intros _. exists g. apply map_find_In; exact E.
  - intros [g H]. apply In_map_find in H. destruct H as [g' ->]. reflexivity.
Qed.

Lemma store_section_In l rd rd' x :
  store_section l rd = Some rd' -> In x (ini_content rd') ->
  (x = (curSection l, itemGroup l) /\ curSection l <> [] /\ itemGroup l <> [])
  \/ In x (ini_content rd).
Proof.
  unfold store_section.
  destruct (str_eqb (curSection l) []) eqn:E1; simpl.
  { intros [= <-]; auto. }
  destruct (itemGroup l) as [|i g] eqn:E2; simpl.
  { intros [= <-]; auto. }
  destruct (map_find (curSection l) (ini_content rd)); [discriminate|].
  intros [= <-]; simpl. intros H. apply In_map_insert in H.
  destruct H as [->|H]; auto.
  left. repeat split; [apply str_eqb_neq; exact E1 | discriminate].
Qed.

(** Every section in the mapping was stored under the title of a header of
    the lines read. *)
Lemma parse_lines_titles lines l rd :
  (curSection l = [] \/ In (SectionTitle (curSection l)) (map classify lines)) ->
  (forall x, In x (ini_content rd) ->
     In (SectionTitle (fst x)) (map classify lines)) ->
  match parse_lines lines l rd with
  | inl (l', rd') =>
      (curSection l' = [] \/ In (SectionTitle (curSection l')) (map classify lines))
      /\ (forall x, In x (ini_content rd') ->
            In (SectionTitle (fst x)) (map classify lines))
  | inr rd' =>
      forall x, In x (ini_content rd') ->
        In (SectionTitle (fst x)) (map classify lines)
  end.
Proof.
  intros H1 H2.
  apply (parse_lines_inv_in
           (fun l rd =>
              (curSection l = [] \/ In (SectionTitle (curSection l)) (map classify lines))
              /\ (forall x, In x (ini_content rd) ->
                    In (SectionTitle (fst x)) (map classify lines)))
           (fun rd => forall x, In x (ini_content rd) ->
                        In (SectionTitle (fst x)) (map classify lines)));
    [|split; assumption].
  clear. intros l rd line Hin [Hc Hm]. unfold parse_line.
  destruct (classify line) as [|n v|n|s] eqn:Ecl.
  - auto.
  - destruct (inExcludedSection l); [auto|].
    destruct (length (curSection l) =? 0)%nat; [auto|].
    match goal with |- context [all_read ?x ?y] =>
      destruct (all_read_cases x y) as [-> | ->] end; simpl; auto.
  - destruct (store_section l rd) as [rd1|] eqn:E; [|auto].
    assert (Hm1 : forall x, In x (ini_content rd1) ->
                    In (SectionTitle (fst x)) (map classify lines)).
    { intros x Hx. destruct (store_section_In _ _ _ _ E Hx) as [(-> & Hne & _)|Hx'].
      - simpl. destruct Hc; [contradiction|assumption].
      - auto. }
    assert (Hn : In (SectionTitle n) (map classify lines)).
    { rewrite <- Ecl. apply in_map; exact Hin. }
    match goal with |- context [all_read ?x ?y] =>
      destruct (all_read_cases x y) as [-> | ->] end; simpl; auto.
  - destruct (store_any_line rd && negb (inExcludedSection l)
              && negb (length (curSection l) =? 0)%nat);
    match goal with |- context [all_read ?x ?y] =>
      destruct (all_read_cases x y) as [-> | ->] end; simpl; auto.
Qed.

Lemma Parse_titles U rd content n :
  SectionExist (snd (Parse U rd content)) n = true ->
  In (SectionTitle n) (map classify (input_lines U rd content)).
Proof.
  rewrite SectionExist_In. intros [g Hin]. revert Hin. unfold Parse.
  pose proof (parse_lines_titles (input_lines U rd content)
                (mkLocals false [] []) (EraseAll rd)) as H.
  simpl in H. specialize (H (or_introl eq_refl) (fun x (F : False) => match F with end)).
  destruct (parse_lines (input_lines U rd content) (mkLocals false [] []) (EraseAll rd))
    as [[l1 rd1]|rd1].
  - destruct H as [Hc Hm].
    destruct (store_section l1 rd1) as [rd2|] eqn:E; simpl.
    + intros Hin. destruct (store_section_In _ _ _ _ E Hin) as [(Heq & Hne & _)|Hx].
      * injection Heq as -> _. destruct Hc; [contradiction|assumption].
      * apply (Hm _ Hx).
    + intros Hin. apply (Hm _ Hin).
  - simpl. intros Hin. apply (H _ Hin).
Qed.

Lemma unparsed_GetItems rd section data :
  parsed rd = false -> GetItems rd section data = ((-1, data), rd).
Proof. unfold GetItems. intros ->. reflexivity. Qed.

Lemma unparsed_Get rd section itemName :
  parsed rd = false -> Get rd section itemName = ([], rd).
Proof. unfold Get. intros ->. reflexivity. Qed.


(** ** Set, Get and the cache *)

Lemma mm_find_insert k v g :
  exists v', mm_find k (mm_insert k v g) = Some v'
             /\ (v' = v \/ In (k, v') g).
Proof.
  induction g as [|[k' w] g IH]; simpl.
  - rewrite str_eqb_refl. eauto.
  - destruct (str_ltb k k'); simpl.
    + rewrite str_eqb_refl. eauto.
    + destruct (str_eqb k' k) eqn:E.
      * apply str_eqb_eq in E; subst. eauto.
      * destruct IH as (v' & -> & [->|H]); eauto.
Qed.

Lemma SectionExist_Set rd section itemName itemVal :
  exists g,
    map_find section (ini_content (snd (Set_ rd section itemName itemVal)))
    = Some (mm_insert itemName itemVal g)
    /\ (map_find section (ini_content rd) = Some g
        \/ (map_find section (ini_content rd) = None /\ g = [])).
Proof.
  unfold Set_, SectionExist, content_at.
  destruct (negb (parsed rd)); simpl;
    destruct (map_find section (ini_content rd)) as [g|] eqn:E; simpl.
  all: try (exists g; split; [apply map_find_assign_same | auto]).
  all: exists []; split; [apply map_find_insert_same; exact E | auto].
Qed.

(** Where the cache holds another section, [Get] after [Set] reads the group
    again and returns the first value under the key: the one just set or
    one the section already held. *)
Lemma Set_then_Get_refreshed rd section itemName itemVal rd1 :
  cached_section rd <> section ->
  snd (Set_ rd section itemName itemVal) = rd1 ->
  exists v,
    fst (Get rd1 section itemName) = v
    /\ mm_find itemName (content_at rd1 section) = Some v
    /\ (v = itemVal \/ In (itemName, v) (content_at rd section)).
Proof.
  intros Hc Hrd1.
  destruct (SectionExist_Set rd section itemName itemVal) as (g & Hf & Hg).
  assert (Hp : parsed rd1 = true).
  { subst rd1. unfold Set_. destruct (parsed rd) eqn:Ep; simpl;
      destruct (SectionExist _ section); simpl; auto. }
  assert (Hcs : cached_section rd1 = cached_section rd).
  { subst rd1. unfold Set_. destruct (negb (parsed rd)); simpl;
      destruct (SectionExist _ section); reflexivity. }
  rewrite Hrd1 in Hf. clear Hrd1.
  destruct (mm_find_insert itemName itemVal g) as (v & Hv & Hin).
  exists v. unfold Get, GetItems, SectionExist, refresh_cache, content_at.
  rewrite Hp, Hf, Hcs. simpl.
  assert (str_eqb section (cached_section rd) = false) as ->
      by (apply str_eqb_neq; congruence).
  simpl. rewrite ?Hf, Hv.
  repeat split.
  destruct Hin as [->|Hin]; auto. right.
  destruct Hg as [->|[_ ->]]; [exact Hin | destruct Hin].
Qed.

(** Where the cache holds the section itself, [Get] after [Set] answers
    from the cached copy, which [Set] has not touched: a key that was not
    in the section before is not found. *)
Lemma Set_then_Get_stale rd section itemName itemVal :
  parsed rd = true ->
  SectionExist rd section = true ->
  cached_section rd = section ->
  mm_find itemName (cached_section_content rd) = None ->
  fst (Get (snd (Set_ rd section itemName itemVal)) section itemName) = [].
Proof.
  intros Hp He Hc Hk. unfold Set_. rewrite Hp. simpl. rewrite He. simpl.
  unfold Get, GetItems, SectionExist, refresh_cache. simpl.
  rewrite Hp, map_find_assign_same, Hc, str_eqb_refl. simpl.
  rewrite Hk. reflexivity.
Qed.

(** C2: the reader has parsed [[a] / x=1] and entered section [a], which
    fills the cache.  [Set] then stores [k = v] in the mapping and returns
    0, but leaves the cached copy as it was, and [Get] answers from the
    cache: the empty text, not [v]. *)
Theorem Set_then_Get_cached_section :
  cached_section (snd (EnterSection reader_a (lit "a"))) = lit "a"
  /\ fst (Set_ (snd (EnterSection reader_a (lit "a"))) (lit "a") (lit "k") (lit "v"))
     = 0
  /\ content_at
       (snd (Set_ (snd (EnterSection reader_a (lit "a"))) (lit "a") (lit "k") (lit "v")))
       (lit "a")
     = [(lit "k", lit "v"); (lit "x", lit "1")]
  /\ fst (Get
            (snd (Set_ (snd (EnterSection reader_a (lit "a"))) (lit "a") (lit "k") (lit "v")))
            (lit "a") (lit "k"))
     = []
  /\ fst (Erase (snd (EnterSection reader_a (lit "a"))) (lit "a") (lit "x")) = 1
  /\ cached_section_content
       (snd (Erase (snd (EnterSection reader_a (lit "a"))) (lit "a") (lit "x")))
     = [].
Proof. vm_compute. repeat split. Qed.

(** ** The order of the tests on a line *)

Lemma regMatch_section_item s :
  regMatch s regSection = true ->
  regMatch s regItem = existsb (Ascii.eqb "=") s.
Proof.
  destruct s as [|c r]; simpl; [discriminate|].
  rewrite !andb_true_iff. intros [[Hc _] Hd].
  apply Ascii.eqb_eq in Hc; subst c. rewrite Hd. reflexivity.
Qed.

(** C6, counterexample: the line [[a=b]] passes the guard and matches both
    patterns; it is read as the item [[a] = [b]], not as the header of a
    section named [a=b]. *)
Lemma classify_bracketed_equals :
  ignored_line (lit "[a=b]") = false
  /\ regMatch (lit "[a=b]") regSection = true
  /\ regMatch (lit "[a=b]") regItem = true
  /\ classify (lit "[a=b]") = ItemLine (lit "[a") (lit "b]")
  /\ classify (lit "[a=b]") <> SectionTitle (lit "a=b").
Proof. vm_compute. repeat split. discriminate. Qed.

(** C6, as amended: for every line that passes the guard, the item pattern
    is tested before the section-header pattern.  A line that matches the
    item pattern, the header pattern or not, is a key/value item: the key
    is the trimmed text before the first equals sign, the value the trimmed
    text after it.  A line is a section header, named by the bracketed text
    as it stands, exactly when it matches the header pattern and holds no
    equals sign. *)
Theorem classify_item_before_section (line : str) :
  ignored_line (strip_cr line) = false ->
  (regMatch (strip_cr line) regItem = true ->
   classify line
   = ItemLine (trim (before_eq (strip_cr line))) (trim (after_eq (strip_cr line))))
  /\ (forall n,
        classify line = SectionTitle n <->
        regMatch (strip_cr line) regSection = true
        /\ existsb (Ascii.eqb "=") (strip_cr line) = false
        /\ n = removelast (tl (strip_cr line))).
Proof.
  intros Hg. unfold classify. rewrite Hg. split.
  - intros ->. reflexivity.
  - intros n. destruct (regMatch (strip_cr line) regItem) eqn:Ei.
    + split; [discriminate|]. intros (Hs & He & _).
      rewrite (regMatch_section_item _ Hs) in Ei. congruence.
    + destruct (regMatch (strip_cr line) regSection) eqn:Es.
      * rewrite (regMatch_section_item _ Es) in Ei. simpl.
        split; [intros [= <-]; auto | intros (_ & _ & ->); reflexivity].
      * split; [discriminate | intros (H & _); discriminate].
Qed.

Lemma classify_item_before_section_witness :
  ignored_line (strip_cr (lit "[a=b]")) = false
  /\ classify (lit "[a=b]")
     = ItemLine (trim (before_eq (strip_cr (lit "[a=b]"))))
         (trim (after_eq (strip_cr (lit "[a=b]")))).
Proof.
  split; [vm_compute; reflexivity|].
  apply (classify_item_before_section (lit "[a=b]")); vm_compute; reflexivity.
Defined.

(** ** The section filter *)

Lemma contains_In v s : contains v s = true <-> In s v.
Proof.
  unfold contains. rewrite existsb_exists. split.
  - intros (x & Hx & E). apply str_eqb_eq in E. subst. exact Hx.
  - intros H. exists s. split; [exact H | apply str_eqb_refl].
Qed.

Lemma chkIgnore_kept rd n : chkIgnore rd n = false <-> kept_by_filters rd n.
Proof.
  unfold chkIgnore, kept_by_filters.
  rewrite orb_false_iff, negb_false_iff.
  rewrite <- (contains_In (exclude_sections rd)).
  destruct (include_sections rd) as [|i incl] eqn:Ei.
  - split.
    + intros [He _]. split; [left; reflexivity | congruence].
    + intros [_ He]. split; [|reflexivity].
      destruct (contains (exclude_sections rd) n); [exfalso; auto | reflexivity].
  - rewrite <- (contains_In (i :: incl)). split.
    + intros [He Hi]. split; [right; exact Hi | congruence].
    + intros [[Hi|Hi] He]; [discriminate|]. split; [|exact Hi].
      destruct (contains (exclude_sections rd) n); [exfalso; auto | reflexivity].
Qed.

Lemma chkIgnore_settings rd rd' n :
  same_settings rd rd' -> chkIgnore rd' n = chkIgnore rd n.
Proof.
  unfold same_settings, chkIgnore. intros (_ & -> & -> & _). reflexivity.
Qed.

Lemma store_section_filter rd0 l rd rd' :
  filter_inv rd0 l rd -> store_section l rd = Some rd' ->
  same_settings rd0 rd' /\ filter_post rd0 rd'.
Proof.
  intros (Hs & Hg & _ & Hm) E. split.
  - eapply same_settings_trans; [exact Hs|]. eapply store_section_settings; eauto.
  - intros x Hx. destruct (store_section_In _ _ _ _ E Hx) as [(-> & _ & Hne)|Hx'].
    + simpl. auto.
    + auto.
Qed.

Lemma parse_line_filter rd0 l rd line :
  filter_inv rd0 l rd ->
  match parse_line l rd line with
  | Next l' rd' | Break l' rd' => filter_inv rd0 l' rd'
  | Return_m1 rd' => filter_post rd0 rd'
  end.
Proof.
  intros Hinv. pose proof Hinv as (Hs & Hg & He & Hm). unfold parse_line.
  destruct (classify line) as [|n v|n|s].
  - exact Hinv.
  - destruct (inExcludedSection l) eqn:Ex; [exact Hinv|].
    rewrite length_eqb_0.
    destruct (str_eqb (curSection l) []) eqn:Ec; [exact Hm|].
    apply str_eqb_neq in Ec.
    match goal with |- context [all_read ?x ?y] =>
      destruct (all_read_cases x y) as [-> | ->] end.
    all: (split; [exact Hs|]; simpl; split;
          [intros _; apply He; [reflexivity|exact Ec]|]; split;
          [intros _ _; apply He; [reflexivity|exact Ec] | exact Hm]).
  - destruct (store_section l rd) as [rd1|] eqn:E; [|exact Hm].
    destruct (store_section_filter _ _ _ _ Hinv E) as [Hs1 Hm1].
    match goal with |- context [all_read ?x ?y] =>
      destruct (all_read_cases x y) as [-> | ->] end;
      (split; [exact Hs1|]; simpl; split; [congruence|]; split; [|exact Hm1];
       intros Hx _; rewrite <- Hx; symmetry; apply chkIgnore_settings;
       exact Hs).
  - rewrite length_eqb_0.
    destruct (store_any_line rd); simpl;
      [destruct (inExcludedSection l) eqn:Ex; simpl;
       [|destruct (str_eqb (curSection l) []) eqn:Ec; simpl] |];
    match goal with |- context [all_read ?x ?y] =>
      destruct (all_read_cases x y) as [-> | ->] end;
      try exact Hinv;
      (apply str_eqb_neq in Ec;
       split; [exact Hs|]; simpl; split;
       [intros _; apply He; [reflexivity|exact Ec]|]; split;
       [intros _ _; apply He; [reflexivity|exact Ec] | exact Hm]).
Qed.

Lemma Parse_filter U rd content n :
  SectionExist (snd (Parse U rd content)) n = true -> kept_by_filters rd n.
Proof.
  rewrite SectionExist_In. intros [g Hin].
  apply chkIgnore_kept.
  change (chkIgnore (EraseAll rd) (fst (n, g)) = false).
  revert Hin. generalize (n, g). unfold Parse.
  pose proof (parse_lines_inv (filter_inv (EraseAll rd)) (filter_post (EraseAll rd))
                (fun l r line => parse_line_filter (EraseAll rd) l r line)
                (input_lines U rd content) (mkLocals false [] []) (EraseAll rd))
    as H.
  assert (H0 : filter_inv (EraseAll rd) (mkLocals false [] []) (EraseAll rd)).
  { split; [apply same_settings_refl|]. simpl.
    split; [congruence|]. split; [congruence|]. intros x []. }
  specialize (H H0).
  destruct (parse_lines _ _ _) as [[l1 rd1]|rd1]; simpl.
  - destruct (store_section l1 rd1) as [rd2|] eqn:E; simpl.
    + apply (store_section_filter _ _ _ _ H E).
    + destruct H as (_ & _ & _ & Hm). exact Hm.
  - exact H.
Qed.

(** C7: a section is in the mapping Parse leaves, with 0 or -1, only if the
    include-set is empty or holds its name and the exclude-set does not
    hold it.  A header sets the skipping flag to the filter's verdict on its
    name and opens an empty group; while the flag is set, a line that is
    not a header leaves the group, the mapping and the flag as they are. *)
Theorem Parse_section_filter (U : str -> str) (rd : INIReader) (content : str) :
  (forall n,
     SectionExist (snd (Parse U rd content)) n = true ->
     (include_sections rd = [] \/ In n (include_sections rd))
     /\ ~ In n (exclude_sections rd))
  /\ (forall r n, chkIgnore r n = false <->
        (include_sections r = [] \/ In n (include_sections r))
        /\ ~ In n (exclude_sections r))
  /\ (forall l r line n l' r',
        classify line = SectionTitle n ->
        parse_line l r line = Next l' r' \/ parse_line l r line = Break l' r' ->
        inExcludedSection l' = chkIgnore r n /\ curSection l' = n
        /\ itemGroup l' = [])
  /\ (forall l r line,
        inExcludedSection l = true ->
        (forall n, classify line <> SectionTitle n) ->
        parse_line l r line = Next l r \/ parse_line l r line = Break l r).
Proof.
  split; [intros n Hn; apply (Parse_filter U rd content n Hn)|].
  split; [intros r n; apply chkIgnore_kept|].
  split.
  - intros l r line n l' r' Hc. unfold parse_line. rewrite Hc.
    destruct (store_section l r) as [r1|]; [|intros [H|H]; discriminate].
    match goal with |- context [all_read ?x ?y] =>
      destruct (all_read_cases x y) as [-> | ->] end;
      intros [[= <- <-]|[= <- <-]]; repeat split.
  - intros l r line Hx Hc. unfold parse_line.
    destruct (classify line) as [|n v|n|s].
    + auto.
    + rewrite Hx. auto.
    + destruct (Hc n). reflexivity.
    + rewrite Hx, andb_false_r. simpl. apply all_read_cases.
Qed.

Lemma Parse_section_filter_witness :
  SectionExist
    (snd (parse_text (ExcludeSection new_reader (lit "a")) sample_ab)) (lit "b")
  = true
  /\ ((include_sections (ExcludeSection new_reader (lit "a")) = []
       \/ In (lit "b") (include_sections (ExcludeSection new_reader (lit "a"))))
      /\ ~ In (lit "b") (exclude_sections (ExcludeSection new_reader (lit "a"))))
  /\ SectionExist
       (snd (parse_text (ExcludeSection new_reader (lit "a")) sample_ab)) (lit "a")
     = false.
Proof.
  assert (H : SectionExist
                (snd (parse_text (ExcludeSection new_reader (lit "a")) sample_ab))
                (lit "b") = true) by (vm_compute; reflexivity).
  split; [exact H|]. split; [|vm_compute; reflexivity].
  exact (proj1 (Parse_section_filter (fun s => s)
                  (ExcludeSection new_reader (lit "a")) sample_ab) (lit "b") H).
Defined.

(** ** GetFirst *)

(** Where [GetAll] returns -1, [GetFirst] returns the empty text. *)
Lemma GetFirst_GetAll_fails rd section itemName :
  fst (fst (GetAll rd section itemName [])) = -1 ->
  fst (GetFirst rd section itemName) = Some [].
Proof.
  unfold GetFirst. destruct (negb (parsed rd)); [reflexivity|].
  destruct (GetAll rd section itemName []) as [[rc result] rd1]; simpl.
  intros ->. reflexivity.
Qed.

(** [GetAll] succeeds on every section of a parsed reader, whatever the
    prefix. *)
Lemma GetAll_succeeds rd section itemName results :
  parsed rd = true -> SectionExist rd section = true ->
  fst (fst (GetAll rd section itemName results)) = 0.
Proof.
  unfold GetAll, GetItems. intros -> ->. reflexivity.
Qed.

(** C8: section [a] holds the one item [x = 1].  For the prefix [y],
    [GetAll] returns 0 with an empty list, and [GetFirst] reads element 0
    of that empty list. *)
Theorem GetFirst_reads_empty_result :
  parsed reader_a = true
  /\ ini_content reader_a = [(lit "a", [(lit "x", lit "1")])]
  /\ fst (GetAll reader_a (lit "a") (lit "y") []) = (0, [])
  /\ fst (GetFirst reader_a (lit "a") (lit "y")) = None.
Proof. vm_compute. repeat split. Qed.

(** ** EraseFirst *)

(** With the section there and the key in it, the first item under the key
    goes and 0 is returned. *)
Lemma EraseFirst_match rd section itemName g v :
  map_find section (ini_content rd) = Some g ->
  mm_find itemName g = Some v ->
  exists rd',
    EraseFirst rd section itemName = Returned (0, rd')
    /\ map_find section (ini_content rd') = Some (mm_erase_first itemName g).
Proof.
  intros Hs Hk. unfold EraseFirst. rewrite Hs, Hk. simpl.
  destruct (str_eqb (cached_section rd) section);
    eexists; (split; [reflexivity|]); simpl; apply map_find_assign_same.
Qed.

(** With the section there and no item under the key, -1 is returned and
    the reader is as before. *)
Lemma EraseFirst_no_match rd section itemName g :
  map_find section (ini_content rd) = Some g ->
  mm_find itemName g = None ->
  EraseFirst rd section itemName = Returned (-1, rd).
Proof. intros Hs Hk. unfold EraseFirst. rewrite Hs, Hk. reflexivity. Qed.

(** Only the first of the items under the key goes. *)
Lemma mm_erase_first_split k g v :
  mm_find k g = Some v ->
  exists g1 g2,
    g = g1 ++ (k, v) :: g2
    /\ mm_erase_first k g = g1 ++ g2
    /\ mm_find k g1 = None.
Proof.
  induction g as [|[k' w] g IH]; simpl; [discriminate|].
  destruct (str_eqb k' k) eqn:E.
  - apply str_eqb_eq in E; subst. intros [= ->].
    exists [], g. repeat split.
  - intros H. destruct (IH H) as (g1 & g2 & -> & -> & Hn).
    exists ((k', w) :: g1), g2. simpl. rewrite E. repeat split. exact Hn.
Qed.

(** C9: for a section that is not in the mapping, [EraseFirst] reaches
    [ini_content.at(section)], which throws [std::out_of_range]; it does not
    return -1 as [Erase] does on the same arguments. *)
Theorem EraseFirst_absent_section_throws
  (rd : INIReader) (section itemName : str) :
  SectionExist rd section = false ->
  EraseFirst rd section itemName = Thrown_out_of_range
  /\ Erase rd section itemName = (-1, rd).
Proof.
  unfold SectionExist, EraseFirst, Erase, SectionExist.
  destruct (map_find section (ini_content rd)); [discriminate|].
  intros _. split; reflexivity.
Qed.

Lemma EraseFirst_absent_section_throws_witness :
  SectionExist reader_a (lit "b") = false
  /\ EraseFirst reader_a (lit "b") (lit "x") = Thrown_out_of_range
  /\ Erase reader_a (lit "b") (lit "x") = (-1, reader_a).
Proof.
  split; [vm_compute; reflexivity|].
  apply (EraseFirst_absent_section_throws reader_a (lit "b") (lit "x")).
  vm_compute; reflexivity.
Defined.

(** ** Section names in the mapping *)



















(** [SetBool] on the cursor hands the cursor on as it is: with no current
    section it calls [Set] with the empty text, where [Set] on the cursor
    returns -1. *)
Lemma SetBool_current_empty_cursor :
  Set_current new_reader (lit "k") (lit "true") = (-1, new_reader)
  /\ fst (SetBool_current new_reader (lit "k") true) = 0
  /\ ini_content (snd (SetBool_current new_reader (lit "k") true))
     = [([], [(lit "k", lit "true")])].
Proof. vm_compute. repeat split. Qed.



(** ** Two sections of one name *)

Lemma items_of_item_line rd body :
  Exists item_line body -> items_of rd body <> [].
Proof.
  induction 1 as [line body (k & v & Hc)|line body _ IH].
  - unfold items_of, stored_item. simpl. rewrite Hc. discriminate.
  - change (items_of rd (line :: body))
      with (match stored_item rd line with Some kv => [kv] | None => [] end
            ++ items_of rd body).
    intros H. apply app_eq_nil in H. destruct H as [_ H]. auto.
Qed.

Lemma items_of_settings rd rd' body :
  same_settings rd rd' -> items_of rd' body = items_of rd body.
Proof.
  intros (_ & _ & _ & Hs & _). unfold items_of, stored_item. rewrite Hs. reflexivity.
Qed.

Lemma chkIgnore_no_filter rd n :
  include_sections rd = [] -> ~ In n (exclude_sections rd) ->
  chkIgnore rd n = false.
Proof. intros Hi He. apply chkIgnore_kept. split; auto. Qed.





(** With an include-set the loop may be left before the second header's
    section is gathered: here the first [a] is stored at the second header,
    the sections read are then the sections to include, the loop stops and
    Parse returns 0. *)
Lemma Parse_same_name_after_early_exit :
  parse_text (IncludeSection new_reader (lit "a"))
    (text ["[a]"; "x=1"; "[a]"; "z=2"]%string)
  = (0, mkReader true [] [(lit "a", [(lit "x", lit "1")])] [] [lit "a"]
          [lit "a"] [] [] false false).
Proof. vm_compute. reflexivity. Qed.



(** ** The order of the items of a section *)

Lemma store_section_keeps l rd rd' n g :
  store_section l rd = Some rd' ->
  map_find n (ini_content rd) = Some g ->
  map_find n (ini_content rd') = Some g.
Proof.
  unfold store_section.
  destruct (negb (str_eqb (curSection l) []) && negb (length (itemGroup l) =? 0)%nat).
  - destruct (map_find (curSection l) (ini_content rd)) eqn:E; [discriminate|].
    intros [= <-] Hn. simpl. rewrite map_find_insert_other; [exact Hn|].
    intros ->. congruence.
  - intros [= <-]. auto.
Qed.

(** A section that is in the mapping stays in it, with its group, for the
    rest of the loop. *)
Lemma parse_lines_keeps lines l rd n g :
  map_find n (ini_content rd) = Some g ->
  match parse_lines lines l rd with
  | inl (_, rd') | inr rd' => map_find n (ini_content rd') = Some g
  end.
Proof.
  intros H.
  pose proof (parse_lines_inv
                (fun _ r => map_find n (ini_content r) = Some g)
                (fun r => map_find n (ini_content r) = Some g)) as Hinv.
  assert (Hstep : forall l0 r0 line,
            map_find n (ini_content r0) = Some g ->
            match parse_line l0 r0 line with
            | Next _ rd' | Break _ rd' | Return_m1 rd' =>
                map_find n (ini_content rd') = Some g
            end).
  { clear. intros l r line H. unfold parse_line.
    destruct (classify line) as [|k v|m|s].
    - exact H.
    - destruct (inExcludedSection l); [exact H|].
      destruct (length (curSection l) =? 0)%nat; [exact H|].
      match goal with |- context [all_read ?x ?y] =>
        destruct (all_read_cases x y) as [-> | ->] end; exact H.
    - destruct (store_section l r) as [r1|] eqn:E; [|exact H].
      pose proof (store_section_keeps _ _ _ _ _ E H).
      match goal with |- context [all_read ?x ?y] =>
        destruct (all_read_cases x y) as [-> | ->] end; assumption.
    - destruct (store_any_line r && negb (inExcludedSection l)
                && negb (length (curSection l) =? 0)%nat);
      match goal with |- context [all_read ?x ?y] =>
        destruct (all_read_cases x y) as [-> | ->] end; exact H. }
  specialize (Hinv Hstep lines l rd H).
  destruct (parse_lines lines l rd) as [[l' rd']|rd']; exact Hinv.
Qed.

(** Once a header has been read, its section open and not skipped, and the
    lines up to the next header or the end gathered, a Parse that returns 0
    has the group of these lines under the name of the section. *)
Lemma parse_lines_section_stored rest l rd l' rd' rd'' :
  include_sections rd = [] ->
  curSection l <> [] -> itemGroup l <> [] ->
  (rest = [] \/ exists h' rest' m, rest = h' :: rest' /\ classify h' = SectionTitle m) ->
  parse_lines rest l rd = inl (l', rd') ->
  store_section l' rd' = Some rd'' ->
  map_find (curSection l) (ini_content rd'') = Some (itemGroup l).
Proof.
  intros Hi Hc Hg [->|(h' & rest' & m & -> & Hh)].
  - simpl. intros [= <- <-]. rewrite (store_section_stores l rd Hc Hg).
    destruct (map_find (curSection l) (ini_content rd)) eqn:E; [discriminate|].
    intros [= <-]. simpl. apply map_find_insert_same. exact E.
  - cbn [parse_lines]. rewrite (parse_line_header l rd h' m Hi Hh).
    rewrite (store_section_stores l rd Hc Hg).
    destruct (map_find (curSection l) (ini_content rd)) eqn:E; [discriminate|].
    match goal with |- context [parse_lines rest' ?l1 ?r1] =>
      pose proof (parse_lines_keeps rest' l1 r1 (curSection l) (itemGroup l)) as Hk;
      destruct (parse_lines rest' l1 r1) as [[l2 r2]|r2]; [|discriminate]
    end.
    intros [= <- <-] Hst. eapply store_section_keeps; [exact Hst|].
    apply Hk. simpl. apply map_find_insert_same. exact E.
Qed.

Lemma Parse_section_group U rd content pre h body rest n rd' :
  include_sections rd = [] ->
  ~ In n (exclude_sections rd) ->
  n <> [] ->
  input_lines U rd content = pre ++ h :: body ++ rest ->
  classify h = SectionTitle n ->
  Forall no_header body ->
  (rest = [] \/ exists h' rest' m, rest = h' :: rest' /\ classify h' = SectionTitle m) ->
  items_of rd body <> [] ->
  Parse U rd content = (0, rd') ->
  map_find n (ini_content rd') = Some (mm_insert_all (items_of rd body) [])
  /\ parsed rd' = true
  /\ cached_section rd' = cached_section rd.
Proof.
  intros Hi He Hn Hlines Hh Hb Hrest Hitems. unfold Parse. rewrite Hlines.
  assert (Hi0 : include_sections (EraseAll rd) = []) by exact Hi.
  rewrite parse_lines_app by exact Hi0.
  pose proof (parse_lines_settings pre (mkLocals false [] []) (EraseAll rd)) as Hs1.
  destruct (parse_lines pre (mkLocals false [] []) (EraseAll rd))
    as [[l1 r1]|r1]; [|discriminate].
  assert (Hi1 : include_sections r1 = []).
  { destruct Hs1 as (_ & _ & -> & _). exact Hi0. }
  cbn [parse_lines]. rewrite (parse_line_header l1 r1 h n Hi1 Hh).
  destruct (store_section l1 r1) as [r2|] eqn:E1; [|discriminate].
  pose proof (same_settings_trans _ _ _ Hs1 (store_section_settings _ _ _ E1)) as Hs2.
  assert (Hi2 : include_sections r2 = []).
  { destruct Hs2 as (_ & _ & -> & _). exact Hi0. }
  rewrite (chkIgnore_settings _ _ n Hs1).
  rewrite (chkIgnore_no_filter (EraseAll rd) n Hi0 He).
  rewrite parse_lines_app by exact Hi2.
  rewrite (parse_lines_body body (mkLocals false n []) r2 Hi2 eq_refl Hn Hb).
  cbn [curSection itemGroup].
  assert (Hit : items_of r2 body = items_of rd body).
  { apply (items_of_settings (EraseAll rd) r2 body Hs2). }
  rewrite Hit.
  assert (Hg : mm_insert_all (items_of rd body) [] <> []).
  { apply mm_insert_all_not_nil. left. exact Hitems. }
  pose proof (parse_lines_section_stored rest
                (mkLocals false n (mm_insert_all (items_of rd body) [])) r2)
    as Hst.
  pose proof (parse_lines_settings rest
                (mkLocals false n (mm_insert_all (items_of rd body) [])) r2)
    as Hs3.
  destruct (parse_lines rest _ r2) as [[l3 r3]|r3]; [|discriminate].
  destruct (store_section l3 r3) as [r4|] eqn:E3; [|discriminate].
  intros [= <-]. simpl.
  split; [apply (Hst l3 r3 r4 Hi2 Hn Hg Hrest eq_refl E3)|].
  split; [reflexivity|].
  pose proof (same_settings_trans _ _ _ Hs2
                (same_settings_trans _ _ _ Hs3 (store_section_settings _ _ _ E3)))
    as (_ & _ & _ & _ & Hc & _).
  exact Hc.
Qed.

(** C5, counterexample: the lines [z=1], [b=2] of section [a] come back
    from [GetItems] and [GetAll] with [b] first. *)
Lemma Parse_group_not_in_input_order :
  fst (parse_text new_reader (text ["[a]"; "z=1"; "b=2"]%string)) = 0
  /\ items_of new_reader [lit "z=1"; lit "b=2"]
     = [(lit "z", lit "1"); (lit "b", lit "2")]
  /\ fst (GetItems (snd (parse_text new_reader (text ["[a]"; "z=1"; "b=2"]%string)))
            (lit "a") [])
     = (0, [(lit "b", lit "2"); (lit "z", lit "1")])
  /\ fst (GetAll (snd (parse_text new_reader (text ["[a]"; "z=1"; "b=2"]%string)))
            (lit "a") [] [])
     = (0, [lit "2"; lit "1"]).
Proof. vm_compute. repeat split. Qed.

(** What [GetItems] and [GetAll] return for a section of a parsed reader
    whose cache holds another section: the group, and the values of the
    items whose key starts with the prefix, in the order of the group. *)
Lemma GetItems_GetAll_group rd n g :
  parsed rd = true ->
  map_find n (ini_content rd) = Some g ->
  cached_section rd <> n ->
  fst (GetItems rd n []) = (0, g)
  /\ forall prefix,
       fst (GetAll rd n prefix [])
       = (0, map snd (filter (fun x => starts_with prefix (fst x)) g)).
Proof.
  intros Hp Hf Hc.
  assert (HG : GetItems rd n [] = ((0, g), with_cache n g rd)).
  { unfold GetItems, SectionExist, refresh_cache, content_at.
    rewrite Hp, Hf. simpl.
    assert (str_eqb n (cached_section rd) = false) as ->
        by (apply str_eqb_neq; congruence).
    reflexivity. }
  split; [rewrite HG; reflexivity|].
  intros prefix. unfold GetAll. rewrite Hp, HG. reflexivity.
Qed.

(** C5, as amended: after a Parse that returns 0, each stored section's
    group is ordered by key (bytes compared as [std::string] does), and
    [GetItems] and [GetAll] (the cache holding another section) return its
    items in this key order, not in the order of the input.  Where the
    reader has no include-set, the group of a section whose name is not
    empty and not excluded is what [multimap::insert] builds from the
    stored lines between its header and the next header or the end, taken
    in input order: the items under one key keep the order of their
    lines. *)
Theorem Parse_group_key_order
  (U : str -> str) (rd : INIReader) (content : str) (rd' : INIReader) :
  Parse U rd content = (0, rd') ->
  (forall n g,
     map_find n (ini_content rd') = Some g ->
     mm_sorted g
     /\ (cached_section rd <> n ->
         fst (GetItems rd' n []) = (0, g)
         /\ forall prefix,
              fst (GetAll rd' n prefix [])
              = (0, map snd (filter (fun x => starts_with prefix (fst x)) g))))
  /\ (forall pre h body rest n,
        include_sections rd = [] ->
        ~ In n (exclude_sections rd) ->
        n <> [] ->
        input_lines U rd content = pre ++ h :: body ++ rest ->
        classify h = SectionTitle n ->
        Forall no_header body ->
        (rest = []
         \/ exists h' rest' m, rest = h' :: rest' /\ classify h' = SectionTitle m) ->
        items_of rd body <> [] ->
        map_find n (ini_content rd')
        = Some (mm_insert_all (items_of rd body) [])
        /\ forall k,
             with_key k (mm_insert_all (items_of rd body) [])
             = with_key k (items_of rd body)).
Proof.
  intros HP.
  destruct (Parse_doc_ok U rd content rd' HP)
    as (_ & Hok & (Hp & _ & _ & _ & Hcs & _)).
  simpl in Hp, Hcs. split.
  - intros n g Hf. split.
    + rewrite Forall_forall in Hok.
      destruct (Hok _ (map_find_In _ _ _ Hf)) as (_ & _ & _ & Hs & _). exact Hs.
    + intros Hc. apply GetItems_GetAll_group; [exact Hp | exact Hf | congruence].
  - intros pre h body rest n Hi He Hn Hlines Hh Hb Hrest Hitems.
    destruct (Parse_section_group U rd content pre h body rest n rd'
                Hi He Hn Hlines Hh Hb Hrest Hitems HP) as (Hf & _ & _).
    split; [exact Hf|].
    intros k. apply (with_key_mm_insert_all k (items_of rd body) []). constructor.
Qed.

Lemma Parse_group_key_order_witness :
  parse_text new_reader (text ["[a]"; "z=1"; "b=2"; "z=0"]%string)
  = (0, mkReader true []
          [(lit "a", [(lit "b", lit "2"); (lit "z", lit "1"); (lit "z", lit "0")])]
          [] [] [lit "a"] [] [] false false)
  /\ mm_sorted [(lit "b", lit "2"); (lit "z", lit "1"); (lit "z", lit "0")].
Proof.
  assert (H : parse_text new_reader (text ["[a]"; "z=1"; "b=2"; "z=0"]%string)
              = (0, mkReader true []
                      [(lit "a", [(lit "b", lit "2"); (lit "z", lit "1");
                                  (lit "z", lit "0")])]
                      [] [] [lit "a"] [] [] false false))
    by (vm_compute; reflexivity).
  split; [exact H|].
  apply (proj1 (Parse_group_key_order (fun s => s) new_reader _ _ H) (lit "a")).
  vm_compute. reflexivity.
Defined.

(** ** What a failed Parse leaves in the mapping *)

(** The loop over lines that go on after a header [h]: it is left at [h] or
    before it, or it reaches the lines after [h] with an empty group. *)
Lemma parse_lines_app_header p h b l rd m :
  classify h = SectionTitle m ->
  parse_lines (p ++ h :: b) l rd = parse_lines (p ++ [h]) l rd
  \/ exists x r1,
       parse_lines (p ++ [h]) l rd = inl (mkLocals x m [], r1)
       /\ parse_lines (p ++ h :: b) l rd = parse_lines b (mkLocals x m []) r1.
Proof.
  intros Hc. revert l rd. induction p as [|line p IH]; intros l rd.
  - cbn [app parse_lines]. unfold parse_line. rewrite Hc.
    destruct (store_section l rd) as [rd1|]; [|left; reflexivity].
    match goal with |- context [all_read ?x ?y] =>
      destruct (all_read_cases x y) as [-> | ->] end.
    + right. eexists _, _. split; reflexivity.
    + left. reflexivity.
  - cbn [app parse_lines].
    destruct (parse_line l rd line) as [l1 rd1|l1 rd1|rd1];
      [apply IH | left; reflexivity | left; reflexivity].
Qed.

(** What Parse leaves in the mapping for a beginning of the input that ends
    in a header, it leaves in the mapping for the whole input, whichever
    value it returns. *)
Lemma Parse_prefix_kept U rd content content1 p h m rest n g :
  input_lines U rd content1 = p ++ [h] ->
  classify h = SectionTitle m ->
  input_lines U rd content = p ++ h :: rest ->
  map_find n (ini_content (snd (Parse U rd content1))) = Some g ->
  map_find n (ini_content (snd (Parse U rd content))) = Some g.
Proof.
  intros H1 Hc H2. unfold Parse. rewrite H1, H2.
  destruct (parse_lines_app_header p h rest (mkLocals false [] []) (EraseAll rd)
              m Hc) as [->|(x & r1 & -> & ->)]; [auto|].
  rewrite store_section_skips by (right; reflexivity).
  cbn [snd]. intros Hn.
  assert (Hn1 : map_find n (ini_content r1) = Some g) by exact Hn.
  pose proof (parse_lines_keeps rest (mkLocals x m []) r1 n g Hn1) as Hk.
  destruct (parse_lines rest (mkLocals x m []) r1) as [[l2 r2]|r2];
    [|exact Hk].
  destruct (store_section l2 r2) as [r3|] eqn:E; [|exact Hk].
  exact (store_section_keeps _ _ _ _ _ E Hk).
Qed.

(** C1, counterexample: the third header closes a second section named [a];
    Parse returns -1 and the sections [a] and [b] stored before it are still
    in the mapping. *)
Lemma Parse_failure_keeps_stored_sections :
  fst (parse_text new_reader
         (text ["[a]"; "x=1"; "[b]"; "y=2"; "[a]"; "z=3"]%string)) = -1
  /\ ini_content
       (snd (parse_text new_reader
               (text ["[a]"; "x=1"; "[b]"; "y=2"; "[a]"; "z=3"]%string)))
     = [(lit "a", [(lit "x", lit "1")]); (lit "b", [(lit "y", lit "2")])]
  /\ SectionCount
       (snd (parse_text new_reader
               (text ["[a]"; "x=1"; "[b]"; "y=2"; "[a]"; "z=3"]%string)))
     = 2%nat.
Proof. vm_compute. repeat split. Qed.

(** C1, as amended: when Parse returns -1 the reader is left unparsed, so
    GetItems fails, Get and ToString give the empty text and ItemCount is 0;
    nothing the mapping held before the call is left in it (the outcome does
    not depend on it).  The mapping is not cleared: every section that Parse
    leaves in the mapping for a beginning of the input that ends in a
    header, so every section stored on the way to the failing line, is in
    the mapping with its group after the failure; and every section that is
    in the mapping was stored from a header of the input. *)
Theorem Parse_failure_leaves_unparsed
  (U : str -> str) (rd : INIReader) (content : str) (rd' : INIReader) :
  Parse U rd content = (-1, rd') ->
  parsed rd' = false
  /\ (forall section data, GetItems rd' section data = ((-1, data), rd'))
  /\ (forall section itemName, Get rd' section itemName = ([], rd'))
  /\ (forall section, ItemCount rd' section = 0%nat)
  /\ ToString rd' = []
  /\ (forall m, Parse U (with_content m rd) content = (-1, rd'))
  /\ (forall n, SectionExist rd' n = true ->
        In (SectionTitle n) (map classify (input_lines U rd content)))
  /\ (forall content1 p h m rest n g,
        input_lines U rd content1 = p ++ [h] ->
        classify h = SectionTitle m ->
        input_lines U rd content = p ++ h :: rest ->
        map_find n (ini_content (snd (Parse U rd content1))) = Some g ->
        map_find n (ini_content rd') = Some g).
Proof.
  intros HP.
  assert (Hp : parsed rd' = false).
  { destruct (Parse_cases U rd content) as [[_ Hs]|[H0 _]].
    - rewrite HP in Hs. simpl in Hs. destruct Hs as (Hs & _). exact Hs.
    - rewrite HP in H0. discriminate. }
  split; [exact Hp|].
  split; [intros; apply unparsed_GetItems; exact Hp|].
  split; [intros; apply unparsed_Get; exact Hp|].
  split; [intros; unfold ItemCount; rewrite Hp; reflexivity|].
  split; [unfold ToString; rewrite Hp; reflexivity|].
  split; [intros m; exact HP|].
  split.
  { intros n Hn. apply Parse_titles. rewrite HP. exact Hn. }
  intros content1 p h m rest n g H1 Hc H2 Hn.
  pose proof (Parse_prefix_kept U rd content content1 p h m rest n g
                H1 Hc H2 Hn) as Hk.
  rewrite HP in Hk. exact Hk.
Qed.

Lemma Parse_failure_leaves_unparsed_witness :
  parse_text new_reader
    (text ["[a]"; "x=1"; "[b]"; "y=2"; "[a]"; "z=3"]%string)
  = (-1, mkReader false [] 
           [(lit "a", [(lit "x", lit "1")]); (lit "b", [(lit "y", lit "2")])]
           [] [] [lit "a"; lit "b"] [] [] false false)
  /\ parsed (mkReader false []
           [(lit "a", [(lit "x", lit "1")]); (lit "b", [(lit "y", lit "2")])]
           [] [] [lit "a"; lit "b"] [] [] false false) = false
  /\ map_find (lit "b")
       (ini_content
          (mkReader false []
             [(lit "a", [(lit "x", lit "1")]); (lit "b", [(lit "y", lit "2")])]
             [] [] [lit "a"; lit "b"] [] [] false false))
     = Some [(lit "y", lit "2")].
Proof.
  assert (H : parse_text new_reader
                (text ["[a]"; "x=1"; "[b]"; "y=2"; "[a]"; "z=3"]%string)
              = (-1, mkReader false []
                       [(lit "a", [(lit "x", lit "1")]); (lit "b", [(lit "y", lit "2")])]
                       [] [] [lit "a"; lit "b"] [] [] false false))
    by (vm_compute; reflexivity).
  destruct (Parse_failure_leaves_unparsed (fun s => s) new_reader _ _ H)
    as (Hp & _ & _ & _ & _ & _ & _ & Hkept).
  split; [exact H|]. split; [exact Hp|].
  apply (Hkept (text ["[a]"; "x=1"; "[b]"; "y=2"; "[a]"]%string)
           [lit "[a]"; lit "x=1"; lit "[b]"; lit "y=2"] (lit "[a]") (lit "a")
           [lit "z=3"] (lit "b") [(lit "y", lit "2")]);
    vm_compute; reflexivity.
Defined.

(** ** Parse after ToString *)

(** *** Reading the sections back, one after the other *)

Lemma pending_cases l :
  (pending l = [] /\ (curSection l = [] \/ itemGroup l = []))
  \/ (pending l = [(curSection l, itemGroup l)]
      /\ curSection l <> [] /\ itemGroup l <> []).
Proof.
  unfold pending. destruct (curSection l), (itemGroup l); auto;
    right; repeat split; discriminate.
Qed.

(** Storing the gathered section puts it at the end of the mapping when
    every name of the mapping is below its name. *)
Lemma store_section_pending l rd rest :
  map_sorted (ini_content rd ++ pending l ++ rest) ->
  exists rd1,
    store_section l rd = Some rd1
    /\ ini_content rd1 = ini_content rd ++ pending l
    /\ same_settings rd rd1.
Proof.
  intros Hs. destruct (pending_cases l) as [[Hp Hn]|(Hp & Hc & Hg)].
  - exists rd. rewrite Hp, app_nil_r.
    split; [apply store_section_skips; exact Hn|].
    split; [reflexivity | apply same_settings_refl].
  - rewrite Hp in *. simpl in Hs. apply map_sorted_app_below in Hs. simpl in Hs.
    rewrite (store_section_stores l rd Hc Hg).
    rewrite (map_find_below _ _ Hs), (map_insert_append _ _ _ Hs).
    eexists. split; [reflexivity|]. split; [reflexivity|]. repeat split.
Qed.

Lemma items_of_section_body rd g :
  Forall (fun kv =>
            fst kv <> NONAME
            /\ classify (item_text kv) = ItemLine (fst kv) (snd kv)
            /\ forallb dot (item_text kv) = true) g ->
  items_of rd (map item_text g ++ [[]]) = g
  /\ Forall no_header (map item_text g ++ [[]]).
Proof.
  induction 1 as [|[k v] g (_ & Hc & _) _ [IH1 IH2]].
  - split; [reflexivity|]. repeat constructor. intros m. discriminate.
  - cbn [map app]. split.
    + change (items_of rd (item_text (k, v) :: map item_text g ++ [[]]))
        with (match stored_item rd (item_text (k, v)) with
              | Some kv => [kv] | None => [] end
              ++ items_of rd (map item_text g ++ [[]])).
      unfold stored_item at 1. rewrite Hc, IH1. reflexivity.
    + constructor; [|exact IH2]. intros m. rewrite Hc. discriminate.
Qed.

Lemma reads_back_filters rd rd' x :
  exclude_sections rd' = exclude_sections rd ->
  include_sections rd' = include_sections rd ->
  reads_back rd x -> reads_back rd' x.
Proof.
  intros He Hi (H1 & H2 & H3 & H4 & H5 & H6 & H7).
  repeat split; auto. unfold chkIgnore in *. rewrite He, Hi. exact H6.
Qed.

Lemma reads_back_settings rd rd' x :
  same_settings rd rd' -> reads_back rd x -> reads_back rd' x.
Proof.
  intros (_ & He & Hi & _). apply reads_back_filters; assumption.
Qed.

(** The loop over the lines of the sections [m], then the last store: the
    mapping gains the gathered section and the sections [m], in this
    order. *)
Lemma parse_lines_sections m :
  forall l rd,
    include_sections rd = [] ->
    Forall (reads_back rd) m ->
    map_sorted (ini_content rd ++ pending l ++ m) ->
    exists l' rd' rd'',
      parse_lines (flat_map section_lines m) l rd = inl (l', rd')
      /\ store_section l' rd' = Some rd''
      /\ ini_content rd'' = ini_content rd ++ pending l ++ m
      /\ same_settings rd rd''.
Proof.
  induction m as [|[n g] m IH]; intros l rd Hi Hm Hs.
  - destruct (store_section_pending l rd [] Hs) as (rd1 & E & Hc & Hst).
    exists l, rd, rd1. rewrite app_nil_r. auto.
  - inversion Hm as [|? ? Hx Hm']; subst.
    destruct Hx as (Hh & _ & Hn & Hg & Hgs & Hchk & Hitems). cbn [fst snd] in *.
    destruct (store_section_pending l rd ((n, g) :: m) Hs) as (rd1 & E & Hc & Hst).
    assert (Hi1 : include_sections rd1 = []).
    { destruct Hst as (_ & _ & -> & _). exact Hi. }
    destruct (items_of_section_body rd1 g Hitems) as [Hit Hnh].
    cbn [flat_map]. unfold section_lines at 1. cbn [fst snd app parse_lines].
    rewrite (parse_line_header l rd (header_text n) n Hi Hh), E, Hchk.
    rewrite parse_lines_app by exact Hi1.
    rewrite (parse_lines_body _ (mkLocals false n []) rd1 Hi1 eq_refl Hn Hnh).
    cbn [curSection itemGroup]. rewrite Hit.
    rewrite (mm_insert_all_sorted_id g [] Hgs). cbn [app].
    assert (Hp : pending (mkLocals false n g) = [(n, g)]).
    { unfold pending. simpl. destruct n; [destruct Hn; reflexivity|].
      destruct g; [destruct Hg; reflexivity | reflexivity]. }
    destruct (IH (mkLocals false n g) rd1 Hi1) as (l' & rd' & rd'' & P1 & P2 & P3 & P4).
    + revert Hm'. apply Forall_impl. intros x. apply reads_back_settings. exact Hst.
    + rewrite Hp, Hc, <- app_assoc. exact Hs.
    + exists l', rd', rd''. split; [exact P1|]. split; [exact P2|].
      split; [rewrite P3, Hp, Hc, <- app_assoc; reflexivity|].
      eapply same_settings_trans; eauto.
Qed.

(** The text ToString writes is split at line feeds into the lines of the
    sections, when no transcoding is asked for. *)
Lemma input_lines_ToString U rd :
  do_utf8_to_gbk rd = false ->
  parsed rd = true ->
  Forall (reads_back rd) (ini_content rd) ->
  input_lines U rd (ToString rd) = flat_map section_lines (ini_content rd).
Proof.
  intros Hu Hp Hm. unfold input_lines, ToString. rewrite Hu, Hp. simpl negb.
  cbv iota.
  destruct (ini_content rd) as [|x m] eqn:Em.
  - reflexivity.
  - pose proof (count_LF_sections x m) as Hc.
    apply Nat.leb_gt in Hc. rewrite Hc.
    apply getlines_sections.
    revert Hm. apply Forall_impl. intros y (_ & H2 & _ & _ & _ & _ & H7).
    split; [exact H2|]. revert H7. apply Forall_impl. intros kv (? & _ & ?).
    auto.
Qed.

Lemma Parse_sections_read_back U rd content rd' :
  Parse U rd content = (0, rd') ->
  (forall n g kv, In (n, g) (ini_content rd') -> In kv g -> item_survives kv) ->
  Forall (reads_back rd') (ini_content rd').
Proof.
  intros HP Hsurv.
  destruct (Parse_doc_ok U rd content rd' HP) as (_ & Hok & Hset).
  apply Forall_forall. intros [n g] Hin.
  rewrite Forall_forall in Hok. specialize (Hok _ Hin).
  destruct Hok as ([line Hl] & Hn & Hg & Hgs & Hgi). cbn [fst snd] in *.
  destruct (classify_header_text line n Hl) as [Hh Hd].
  assert (Hchk : chkIgnore rd' n = false).
  { rewrite (chkIgnore_settings (with_parsed true rd) rd' n Hset).
    change (chkIgnore rd n = false). apply chkIgnore_kept.
    apply (Parse_filter U rd content n). rewrite HP. simpl.
    apply SectionExist_In. exists g. exact Hin. }
  repeat split; auto.
  apply Forall_forall. intros kv Hkv.
  pose proof (Hsurv n g kv Hin Hkv) as Hsv.
  rewrite Forall_forall in Hgi. specialize (Hgi _ Hkv).
  destruct Hsv as (Hne & Hrest).
  destruct Hgi as [Heq|Hline]; [contradiction|].
  destruct (classify_item_text kv Hline (conj Hne Hrest)) as [Hc Hdot].
  auto.
Qed.

(** C3, counterexample: the line [ ;k=v] is an item with the key [;k].
    ToString writes it as [;k = v], which Parse skips as a comment: the
    second Parse returns 0 with an empty mapping. *)
Lemma round_trip_loses_comment_like_key :
  fst (parse_text new_reader (text ["[a]"; " ;k=v"]%string)) = 0
  /\ ini_content (snd (parse_text new_reader (text ["[a]"; " ;k=v"]%string)))
     = [(lit "a", [(lit ";k", lit "v")])]
  /\ ToString (snd (parse_text new_reader (text ["[a]"; " ;k=v"]%string)))
     = text ["[a]"; ";k = v"; ""]%string
  /\ parse_text (snd (parse_text new_reader (text ["[a]"; " ;k=v"]%string)))
       (ToString (snd (parse_text new_reader (text ["[a]"; " ;k=v"]%string))))
     = (0, mkReader true [] [] [] [] [lit "a"] [] [] false false).
Proof. vm_compute. repeat split. Qed.

(** With an include-set the reader that wrote the text does not read it
    back either: [read_sections] still lists the sections of the first
    Parse, so the second one leaves the loop after the first line. *)
Lemma round_trip_with_include_set :
  ini_content
    (snd (parse_text (IncludeSection new_reader (lit "a"))
            (text ["[a]"; "x=1"]%string)))
  = [(lit "a", [(lit "x", lit "1")])]
  /\ ini_content
       (snd (parse_text
               (snd (parse_text (IncludeSection new_reader (lit "a"))
                       (text ["[a]"; "x=1"]%string)))
               (text ["[a]"; "x = 1"; ""]%string)))
     = [].
Proof. vm_compute. split; reflexivity. Qed.

(** Nor does a line of MAX_LINE_LENGTH characters come back: ToString
    writes the item with blanks around the equals sign, two characters
    more, and Parse skips the longer line. *)
Lemma round_trip_long_line :
  fst (parse_text new_reader long_text) = 0
  /\ ini_content (snd (parse_text new_reader long_text))
     = [(lit "a", [(lit "k", repeat "v" 4094)])]
  /\ ini_content
       (snd (parse_text (snd (parse_text new_reader long_text))
               (ToString (snd (parse_text new_reader long_text)))))
     = [].
Proof. vm_compute. repeat split. Qed.

(** C3, as amended: the reader has no include-set and does not transcode.
    If Parse returns 0 and, in the Document it leaves, no item has the key
    [{NONAME}], no key begins with [;] or [#], and every line [key = value]
    is at most MAX_LINE_LENGTH long, then Parse of the text ToString writes
    returns 0 and leaves the same Document: the same section names with the
    same item groups in the same order. *)
Theorem Parse_ToString_round_trip
  (U : str -> str) (rd : INIReader) (content : str) (rd' : INIReader) :
  include_sections rd = [] ->
  do_utf8_to_gbk rd = false ->
  Parse U rd content = (0, rd') ->
  (forall n g kv, In (n, g) (ini_content rd') -> In kv g -> item_survives kv) ->
  exists rd'',
    Parse U rd' (ToString rd') = (0, rd'')
    /\ ini_content rd'' = ini_content rd'.
Proof.
  intros Hi Hu HP Hsurv.
  pose proof (Parse_sections_read_back U rd content rd' HP Hsurv) as Hrb.
  destruct (Parse_doc_ok U rd content rd' HP)
    as (Hsort & _ & (Hp & _ & Hinc & _ & _ & _ & Hutf)).
  simpl in Hp, Hinc, Hutf.
  assert (Hi' : include_sections rd' = []) by congruence.
  assert (Hu' : do_utf8_to_gbk rd' = false) by congruence.
  unfold Parse.
  rewrite (input_lines_ToString U rd' Hu' Hp Hrb).
  destruct (parse_lines_sections (ini_content rd') (mkLocals false [] [])
              (EraseAll rd') Hi')
    as (l1 & r1 & r2 & P1 & P2 & P3 & _).
  - revert Hrb. apply Forall_impl. intros x.
    apply reads_back_filters; reflexivity.
  - exact Hsort.
  - rewrite P1, P2. eexists. split; [reflexivity|]. simpl. exact P3.
Qed.

Lemma Parse_ToString_round_trip_witness :
  exists rd'',
    parse_text (snd (parse_text new_reader sample_ab))
      (ToString (snd (parse_text new_reader sample_ab)))
    = (0, rd'')
    /\ ini_content rd'' = ini_content (snd (parse_text new_reader sample_ab)).
Proof.
  apply (Parse_ToString_round_trip (fun s => s) new_reader sample_ab).
  - reflexivity.
  - reflexivity.
  - vm_compute. reflexivity.
  - intros n g kv H1 H2. vm_compute in H1.
    destruct H1 as [[= <- <-]|[[= <- <-]|[]]];
      (destruct H2 as [<-|[]]; unfold item_survives; simpl;
       repeat split; try discriminate; unfold MAX_LINE_LENGTH; lia).
Defined.

(** * Further properties *)

(** ** The lines of a text *)

Lemma getlines_nil d s : getlines d s = [] -> s = [].
Proof.
  destruct s as [|c s]; [reflexivity|]. simpl.
  destruct (Ascii.eqb c d); [discriminate|].
  destruct (getlines d s); discriminate.
Qed.

(** X1: [getline] never delivers a line that holds the delimiter, and the
    lines, each followed by the delimiter, give the text back, with one
    delimiter added when the text does not end with one. *)
Theorem getlines_join (d : ascii) (s : str) :
  Forall (fun l => forallb (fun c => negb (Ascii.eqb c d)) l = true)
    (getlines d s)
  /\ join_lines d (getlines d s) = s ++ (if unterminated d s then [d] else []).
Proof.
  induction s as [|c s [IH1 IH2]].
  - split; [constructor | reflexivity].
  - cbn [getlines]. destruct (Ascii.eqb c d) eqn:E.
    + apply Ascii.eqb_eq in E. subst c. split.
      * constructor; [reflexivity | exact IH1].
      * unfold join_lines in *. cbn [map concat app]. rewrite IH2.
        destruct s as [|c' s']; [|reflexivity].
        simpl. rewrite Ascii.eqb_refl. reflexivity.
    + destruct (getlines d s) as [|l ls] eqn:El.
      * apply getlines_nil in El. subst s. split.
        -- repeat constructor. simpl. rewrite E. reflexivity.
        -- unfold join_lines. simpl. rewrite E. reflexivity.
      * split.
        -- inversion IH1; subst. constructor; [|assumption].
           simpl. rewrite E. simpl. assumption.
        -- unfold join_lines in *. cbn [map concat app] in *.
           rewrite IH2.
           destruct s as [|c' s']; [discriminate El|reflexivity].
Qed.

(** ** Lines the loop passes over *)

Lemma classify_ignored line :
  ignored_line (strip_cr line) = true -> classify line = Ignored.
Proof. unfold classify. intros ->. reflexivity. Qed.

Lemma parse_line_strip_cr l rd line :
  parse_line l rd (strip_cr line) = parse_line l rd line.
Proof. unfold parse_line. rewrite classify_strip_cr. reflexivity. Qed.

Lemma parse_lines_read_lines lines l rd :
  parse_lines (read_lines lines) l rd = parse_lines lines l rd.
Proof.
  revert l rd. induction lines as [|line lines IH]; intros l rd.
  - reflexivity.
  - unfold read_lines in *. cbn [map filter].
    destruct (ignored_line (strip_cr line)) eqn:E; cbn [negb parse_lines].
    + unfold parse_line at 1. rewrite (classify_ignored line E). apply IH.
    + rewrite parse_line_strip_cr.
      destruct (parse_line l rd line); [apply IH | reflexivity | reflexivity].
Qed.

(** X2: every carriage return is taken out of a line before the line is
    tested; empty lines, lines longer than MAX_LINE_LENGTH and comment
    lines are then passed over.  Two texts whose lines are the same after
    that are parsed to the same result and reader. *)
Theorem Parse_read_lines
  (U : str -> str) (rd : INIReader) (content1 content2 : str) :
  read_lines (input_lines U rd content1) = read_lines (input_lines U rd content2) ->
  Parse U rd content1 = Parse U rd content2.
Proof.
  intros H. unfold Parse.
  rewrite <- (parse_lines_read_lines (input_lines U rd content1)).
  rewrite <- (parse_lines_read_lines (input_lines U rd content2)).
  rewrite H. reflexivity.
Qed.

Lemma Parse_read_lines_witness :
  parse_text new_reader
    (text ["; settings"; "[a]"; ""; "# one"; "x=1"]%string)
  = parse_text new_reader (lit "[a]" ++ [CR; LF] ++ lit "x=1" ++ [CR; LF] ++ [LF]).
Proof.
  apply (Parse_read_lines (fun s => s) new_reader). vm_compute. reflexivity.
Defined.

(** ** An item before any section *)

Lemma all_read_no_early_exit l rd :
  no_early_exit rd -> all_read l rd = Next l rd.
Proof.
  unfold all_read. intros [-> | ->]; [reflexivity|].
  rewrite andb_false_r. reflexivity.
Qed.

Lemma parse_lines_before_header pre item rest rd :
  no_early_exit rd ->
  Forall no_header pre ->
  item_line item ->
  parse_lines (pre ++ item :: rest) (mkLocals false [] []) rd = inr rd.
Proof.
  intros Hn Hpre (k & v & Hitem).
  induction Hpre as [|line pre Hline _ IH]; cbn [app parse_lines].
  - unfold parse_line. rewrite Hitem. reflexivity.
  - unfold parse_line. destruct (classify line) as [|k' v'|m|s] eqn:E.
    + exact IH.
    + reflexivity.
    + destruct (Hline m). exact E.
    + cbn [inExcludedSection curSection length Nat.eqb negb andb].
      rewrite andb_false_r.
      rewrite (all_read_no_early_exit _ rd Hn). exact IH.
Qed.

(** X3: an item line that comes before every section header makes Parse
    return -1 (the early exit of the loop not being due): nothing is
    stored, the reader is as EraseAll leaves it. *)
Theorem Parse_item_outside_section
  (U : str -> str) (rd : INIReader) (content : str)
  (pre : list str) (item : str) (rest : list str) :
  no_early_exit rd ->
  input_lines U rd content = pre ++ item :: rest ->
  Forall no_header pre ->
  item_line item ->
  Parse U rd content = (-1, EraseAll rd).
Proof.
  intros Hn Hlines Hpre Hitem. unfold Parse. rewrite Hlines.
  rewrite (parse_lines_before_header pre item rest (EraseAll rd) Hn Hpre Hitem).
  reflexivity.
Qed.

Lemma Parse_item_outside_section_witness :
  parse_text (IncludeSection new_reader (lit "a"))
    (text ["; head"; "stray"; "x=1"; "[a]"; "y=2"]%string)
  = (-1, EraseAll (IncludeSection new_reader (lit "a"))).
Proof.
  apply (Parse_item_outside_section (fun s => s)
           (IncludeSection new_reader (lit "a"))
           (text ["; head"; "stray"; "x=1"; "[a]"; "y=2"]%string)
           [lit "; head"; lit "stray"] (lit "x=1") [lit "[a]"; lit "y=2"]).
  - right. reflexivity.
  - vm_compute. reflexivity.
  - repeat constructor; intros m; vm_compute; discriminate.
  - exists (lit "x"), (lit "1"). vm_compute. reflexivity.
Defined.

(** ** ExcludeSection and IncludeSection *)

(** X4: a name given to ExcludeSection is never a section of the mapping
    Parse leaves, whatever the include-set; after IncludeSection only the
    names of the include-set are. *)
Theorem Parse_after_filters
  (U : str -> str) (rd : INIReader) (section : str) (content : str) :
  SectionExist (snd (Parse U (ExcludeSection rd section) content)) section = false
  /\ (forall n,
        SectionExist (snd (Parse U (IncludeSection rd section) content)) n = true ->
        n = section \/ In n (include_sections rd)).
Proof.
  split.
  - destruct (SectionExist _ section) eqn:E; [|reflexivity].
    apply Parse_filter in E. destruct E as [_ He]. exfalso. apply He.
    simpl. apply in_or_app. right. left. reflexivity.
  - intros n E. apply Parse_filter in E. destruct E as [[Hi|Hi] _].
    + simpl in Hi. destruct (include_sections rd); discriminate.
    + simpl in Hi. apply in_app_or in Hi. destruct Hi as [Hi|[<-|[]]]; auto.
Qed.

(** ** The order of the containers *)

Lemma Forall_map_assign (P : str * string_multimap -> Prop) k g m :
  (forall k', P (k', g)) -> Forall P m -> Forall P (map_assign k g m).
Proof.
  intros Hp Hm. induction Hm as [|[k' g'] m Hx Hm IH]; simpl.
  - constructor; [apply Hp | constructor].
  - destruct (str_compare k k'); repeat constructor; auto.
Qed.

Lemma map_assign_below k g m k0 :
  str_ltb k0 k = true ->
  Forall (fun x => str_ltb k0 (fst x) = true) m ->
  Forall (fun x => str_ltb k0 (fst x) = true) (map_assign k g m).
Proof.
  intros Hk Hm. induction Hm as [|[k' g'] m Hx Hm IH]; simpl.
  - constructor; [exact Hk | constructor].
  - destruct (str_compare k k'); repeat constructor; auto.
Qed.

Lemma map_assign_sorted k g m : map_sorted m -> map_sorted (map_assign k g m).
Proof.
  unfold map_sorted. induction 1 as [|[k' g'] m Hs IH Hall]; simpl.
  - repeat constructor.
  - destruct (str_compare k k') eqn:E.
    + constructor; assumption.
    + apply str_ltb_compare in E.
      constructor; [constructor; assumption|].
      constructor; [exact E|].
      revert Hall. apply Forall_impl. intros [k2 g2]. simpl.
      apply str_ltb_trans. exact E.
    + constructor; [exact IH|].
      apply map_assign_below; [|exact Hall].
      apply str_ltb_compare. apply str_compare_gt_lt. exact E.
Qed.

Lemma StronglySorted_filter {A} (R : A -> A -> Prop) (f : A -> bool) l :
  StronglySorted R l -> StronglySorted R (filter f l).
Proof.
  induction 1 as [|x l Hs IH Hall]; simpl; [constructor|].
  destruct (f x); [|exact IH].
  constructor; [exact IH|].
  rewrite Forall_forall in *. intros y Hy. apply filter_In in Hy.
  apply Hall. tauto.
Qed.

Lemma In_mm_erase_first k g x : In x (mm_erase_first k g) -> In x g.
Proof.
  induction g as [|[k' v'] g IH]; simpl; [tauto|].
  destruct (str_eqb k' k); simpl; [tauto|]. intros [H|H]; auto.
Qed.

Lemma mm_erase_first_sorted k g :
  mm_sorted g -> mm_sorted (mm_erase_first k g).
Proof.
  unfold mm_sorted. induction 1 as [|[k' v'] g Hs IH Hall]; simpl; [constructor|].
  destruct (str_eqb k' k); [exact Hs|].
  constructor; [exact IH|].
  rewrite Forall_forall in *. intros y Hy. apply Hall.
  apply (In_mm_erase_first k g y Hy).
Qed.

Lemma content_at_sorted rd section :
  Forall (fun x => mm_sorted (snd x)) (ini_content rd) ->
  mm_sorted (content_at rd section).
Proof.
  intros H. unfold content_at.
  destruct (map_find section (ini_content rd)) as [g|] eqn:E; [|constructor].
  rewrite Forall_forall in H. apply (H _ (map_find_In _ _ _ E)).
Qed.

Lemma ordered_same rd rd' :
  ini_content rd' = ini_content rd ->
  cached_section_content rd' = cached_section_content rd ->
  ordered rd -> ordered rd'.
Proof. unfold ordered. intros -> ->. auto. Qed.

Lemma ordered_refresh_cache rd section :
  ordered rd -> ordered (refresh_cache rd section).
Proof.
  intros (H1 & H2 & H3). unfold refresh_cache.
  destruct (negb (str_eqb section (cached_section rd))); [|repeat split; assumption].
  repeat split; simpl; auto. apply content_at_sorted. exact H2.
Qed.

Lemma ordered_GetItems rd section data :
  ordered rd -> ordered (snd (GetItems rd section data)).
Proof.
  intros H. unfold GetItems.
  destruct (negb (parsed rd) || negb (SectionExist rd section)); simpl;
    [exact H | apply ordered_refresh_cache; exact H].
Qed.

Lemma ordered_GetAll rd section itemName results :
  ordered rd -> ordered (snd (GetAll rd section itemName results)).
Proof.
  intros H. unfold GetAll. destruct (negb (parsed rd)); [exact H|].
  pose proof (ordered_GetItems rd section [] H) as H1.
  destruct (GetItems rd section []) as [[rc g] rd1]; simpl in *.
  destruct rc; exact H1.
Qed.

Lemma ordered_Get rd section itemName :
  ordered rd -> ordered (snd (Get rd section itemName)).
Proof.
  intros H. unfold Get. destruct (negb (parsed rd)); [exact H|].
  pose proof (ordered_GetItems rd section [] H) as H1.
  destruct (GetItems rd section []) as [[rc g] rd1]; simpl in *.
  destruct rc; exact H1.
Qed.

Lemma ordered_GetFirst rd section itemName :
  ordered rd -> ordered (snd (GetFirst rd section itemName)).
Proof.
  intros H. unfold GetFirst. destruct (negb (parsed rd)); [exact H|].
  pose proof (ordered_GetAll rd section itemName [] H) as H1.
  destruct (GetAll rd section itemName []) as [[rc g] rd1]; simpl in *.
  destruct (negb (rc =? -1)); exact H1.
Qed.

Lemma ordered_Set rd section itemName itemVal :
  ordered rd -> ordered (snd (Set_ rd section itemName itemVal)).
Proof.
  intros (H1 & H2 & H3). unfold Set_.
  remember (if negb (parsed rd) then with_parsed true rd else rd) as rd0 eqn:Hrd0.
  assert (E1 : ini_content rd0 = ini_content rd)
    by (subst rd0; destruct (negb (parsed rd)); reflexivity).
  assert (E2 : cached_section_content rd0 = cached_section_content rd)
    by (subst rd0; destruct (negb (parsed rd)); reflexivity).
  clear Hrd0.
  assert (Hg : mm_sorted (content_at rd0 section)).
  { apply content_at_sorted. rewrite E1. exact H2. }
  destruct (SectionExist rd0 section); unfold ordered; simpl; rewrite E1, E2.
  - repeat split; auto.
    + apply map_assign_sorted. exact H1.
    + apply Forall_map_assign; [|exact H2].
      intros k'. simpl. apply mm_insert_sorted. exact Hg.
  - repeat split; auto.
    + apply map_insert_sorted. exact H1.
    + apply Forall_map_insert; [|exact H2].
      simpl. apply (mm_insert_sorted itemName itemVal []). constructor.
Qed.

Lemma ordered_Erase rd section itemName :
  ordered rd -> ordered (snd (Erase rd section itemName)).
Proof.
  intros (H1 & H2 & H3). unfold Erase.
  destruct (negb (SectionExist rd section)); [repeat split; assumption|].
  assert (Hg : mm_sorted (mm_erase itemName (content_at rd section))).
  { apply StronglySorted_filter. apply content_at_sorted. exact H2. }
  match goal with |- context [if ?c then _ else _] => destruct c end; simpl;
    (repeat split; auto;
     [apply map_assign_sorted; exact H1
     | apply Forall_map_assign; [intros k'; exact Hg | exact H2]]).
Qed.

Lemma ordered_EraseFirst rd section itemName r rd' :
  ordered rd -> EraseFirst rd section itemName = Returned (r, rd') ->
  ordered rd'.
Proof.
  intros (H1 & H2 & H3). unfold EraseFirst.
  destruct (map_find section (ini_content rd)) as [g|] eqn:E; [|discriminate].
  assert (Hg : mm_sorted (mm_erase_first itemName g)).
  { apply mm_erase_first_sorted. rewrite Forall_forall in H2.
    apply (H2 _ (map_find_In _ _ _ E)). }
  destruct (mm_find itemName g).
  - simpl. destruct (str_eqb (cached_section rd) section); intros [= _ <-];
      (repeat split; simpl; auto;
       [apply map_assign_sorted; exact H1
       | apply Forall_map_assign; [intros k'; exact Hg | exact H2]]).
  - intros [= _ <-]. repeat split; assumption.
Qed.

Lemma store_section_ordered l rd rd' :
  store_section l rd = Some rd' ->
  mm_sorted (itemGroup l) -> ordered rd -> ordered rd'.
Proof.
  unfold store_section.
  destruct (negb (str_eqb (curSection l) []) && negb (length (itemGroup l) =? 0)%nat).
  - destruct (map_find (curSection l) (ini_content rd)); [discriminate|].
    intros [= <-] Hg (H1 & H2 & H3). repeat split; simpl; auto.
    + apply map_insert_sorted. exact H1.
    + apply Forall_map_insert; [exact Hg | exact H2].
  - intros [= <-]; auto.
Qed.

Lemma parse_lines_ordered lines l rd :
  mm_sorted (itemGroup l) -> ordered rd ->
  match parse_lines lines l rd with
  | inl (l', rd') => mm_sorted (itemGroup l') /\ ordered rd'
  | inr rd' => ordered rd'
  end.
Proof.
  intros Hl Hr.
  apply (parse_lines_inv (fun l rd => mm_sorted (itemGroup l) /\ ordered rd)
           ordered); [|auto].
  clear. intros l rd line [Hl Hr]. unfold parse_line.
  destruct (classify line) as [|k v|n|s].
  - auto.
  - destruct (inExcludedSection l); [auto|].
    destruct (length (curSection l) =? 0)%nat; [auto|].
    match goal with |- context [all_read ?x ?y] =>
      destruct (all_read_cases x y) as [-> | ->] end; simpl;
      (split; [apply mm_insert_sorted; exact Hl | exact Hr]).
  - destruct (store_section l rd) as [rd1|] eqn:E; [|auto].
    pose proof (store_section_ordered _ _ _ E Hl Hr) as H1.
    match goal with |- context [all_read ?x ?y] =>
      destruct (all_read_cases x y) as [-> | ->] end; simpl;
      (split; [constructor | exact H1]).
  - destruct (store_any_line rd && negb (inExcludedSection l)
              && negb (length (curSection l) =? 0)%nat);
    match goal with |- context [all_read ?x ?y] =>
      destruct (all_read_cases x y) as [-> | ->] end; simpl; auto;
      (split; [apply mm_insert_sorted; exact Hl | exact Hr]).
Qed.

Lemma ordered_Parse U rd content :
  mm_sorted (cached_section_content rd) -> ordered (snd (Parse U rd content)).
Proof.
  intros Hc. unfold Parse.
  assert (H0 : ordered (EraseAll rd)).
  { repeat split; simpl; [constructor | constructor | exact Hc]. }
  pose proof (parse_lines_ordered (input_lines U rd content)
                (mkLocals false [] []) (EraseAll rd) (SSorted_nil _) H0) as H.
  destruct (parse_lines _ _ _) as [[l1 rd1]|rd1]; simpl; [|exact H].
  destruct H as [Hl Hr].
  destruct (store_section l1 rd1) as [rd2|] eqn:E; simpl; [|exact Hr].
  apply (ordered_same rd2); [reflexivity | reflexivity|].
  apply (store_section_ordered _ _ _ E Hl Hr).
Qed.

Lemma ordered_new_reader : ordered new_reader.
Proof. repeat split; constructor. Qed.

(** X5: the reader keeps its containers in order.  From a reader whose
    sections are in name order and whose groups and cached copy are in key
    order, Parse (with 0 or -1), the setters, the erasers, EnterSection and
    the readers that refresh the cache all leave such a reader. *)
Theorem ordered_preserved (U : str -> str) (rd : INIReader) :
  ordered rd ->
  (forall content, ordered (snd (Parse U rd content)))
  /\ (forall section itemName itemVal,
        ordered (snd (Set_ rd section itemName itemVal)))
  /\ (forall itemName itemVal, ordered (snd (Set_current rd itemName itemVal)))
  /\ (forall section itemName itemVal,
        ordered (snd (SetBool rd section itemName itemVal)))
  /\ (forall itemName itemVal,
        ordered (snd (SetBool_current rd itemName itemVal)))
  /\ (forall section itemName, ordered (snd (Erase rd section itemName)))
  /\ (forall section itemName r rd',
        EraseFirst rd section itemName = Returned (r, rd') -> ordered rd')
  /\ ordered (EraseAll rd)
  /\ (forall section, ordered (snd (EnterSection rd section)))
  /\ (forall section itemName, ordered (snd (ItemExist rd section itemName)))
  /\ (forall section itemName,
        ordered (snd (ItemPrefixExist rd section itemName)))
  /\ (forall section data, ordered (snd (GetItems rd section data)))
  /\ (forall section itemName results,
        ordered (snd (GetAll rd section itemName results)))
  /\ (forall section itemName, ordered (snd (Get rd section itemName)))
  /\ (forall section itemName, ordered (snd (GetFirst rd section itemName))).
Proof.
  intros H. pose proof H as (H1 & H2 & H3).
  split; [intros; apply ordered_Parse; exact H3|].
  split; [intros; apply ordered_Set; exact H|].
  split.
  { intros. unfold Set_current.
    destruct (length (current_section rd) =? 0)%nat; [exact H|].
    apply ordered_Set; exact H. }
  split; [intros; apply ordered_Set; exact H|].
  split; [intros; apply ordered_Set; exact H|].
  split; [intros; apply ordered_Erase; exact H|].
  split; [intros section itemName r rd'; apply ordered_EraseFirst; exact H|].
  split; [repeat split; simpl; [constructor | constructor | exact H3]|].
  split.
  { intros. unfold EnterSection.
    destruct (negb (SectionExist rd section)); [exact H|].
    repeat split; simpl; auto. apply content_at_sorted. exact H2. }
  split.
  { intros. unfold ItemExist.
    destruct (negb (SectionExist rd section)); simpl;
      [exact H | apply ordered_refresh_cache; exact H]. }
  split.
  { intros. unfold ItemPrefixExist.
    destruct (negb (SectionExist rd section)); simpl;
      [exact H | apply ordered_refresh_cache; exact H]. }
  split; [intros; apply ordered_GetItems; exact H|].
  split; [intros; apply ordered_GetAll; exact H|].
  split; [intros; apply ordered_Get; exact H|].
  intros; apply ordered_GetFirst; exact H.
Qed.

Lemma ordered_preserved_witness :
  ordered new_reader
  /\ ordered (snd (parse_text new_reader sample_ab)).
Proof.
  split; [exact ordered_new_reader|].
  apply (ordered_preserved (fun s => s) new_reader ordered_new_reader).
Defined.

(** ** The sections of the mapping *)

Lemma map_sorted_names m :
  map_sorted m -> StronglySorted (fun a b => str_ltb a b = true) (map fst m).
Proof.
  unfold map_sorted. induction 1 as [|x m Hs IH Hall]; simpl; constructor.
  - exact IH.
  - rewrite Forall_map. exact Hall.
Qed.

Lemma sorted_names_NoDup (ns : list str) :
  StronglySorted (fun a b => str_ltb a b = true) ns -> NoDup ns.
Proof.
  induction 1 as [|n ns Hs IH Hall]; constructor; [|exact IH].
  intros Hin. rewrite Forall_forall in Hall. specialize (Hall _ Hin).
  rewrite str_ltb_irrefl in Hall. discriminate.
Qed.



(** ** ItemCount after Parse *)





(** ** What Parse leaves as it was *)

Lemma store_section_cursor l rd rd' :
  store_section l rd = Some rd' -> current_section rd' = current_section rd.
Proof.
  unfold store_section.
  destruct (negb (str_eqb (curSection l) []) && negb (length (itemGroup l) =? 0)%nat).
  - destruct (map_find (curSection l) (ini_content rd)); [discriminate|].
    intros [= <-]. reflexivity.
  - intros [= <-]. reflexivity.
Qed.

Lemma parse_lines_cursor lines l rd :
  match parse_lines lines l rd with
  | inl (_, rd') | inr rd' => current_section rd' = current_section rd
  end.
Proof.
  pose proof (parse_lines_inv
                (fun _ r => current_section r = current_section rd)
                (fun r => current_section r = current_section rd)) as Hinv.
  assert (Hstep : forall l0 r0 line,
            current_section r0 = current_section rd ->
            match parse_line l0 r0 line with
            | Next _ rd' | Break _ rd' | Return_m1 rd' =>
                current_section rd' = current_section rd
            end).
  { intros l0 r0 line H. unfold parse_line.
    destruct (classify line) as [|k v|m|s].
    - exact H.
    - destruct (inExcludedSection l0); [exact H|].
      destruct (length (curSection l0) =? 0)%nat; [exact H|].
      match goal with |- context [all_read ?x ?y] =>
        destruct (all_read_cases x y) as [-> | ->] end; exact H.
    - destruct (store_section l0 r0) as [r1|] eqn:E; [|exact H].
      apply store_section_cursor in E.
      match goal with |- context [all_read ?x ?y] =>
        destruct (all_read_cases x y) as [-> | ->] end; congruence.
    - destruct (store_any_line r0 && negb (inExcludedSection l0)
                && negb (length (curSection l0) =? 0)%nat);
      match goal with |- context [all_read ?x ?y] =>
        destruct (all_read_cases x y) as [-> | ->] end; exact H. }
  specialize (Hinv Hstep lines l rd eq_refl).
  destruct (parse_lines lines l rd) as [[l' rd']|rd']; exact Hinv.
Qed.

Lemma Parse_settings U rd content :
  same_settings (with_parsed (parsed (snd (Parse U rd content))) rd)
    (snd (Parse U rd content))
  /\ current_section (snd (Parse U rd content)) = current_section rd.
Proof.
  unfold Parse.
  pose proof (parse_lines_settings (input_lines U rd content)
                (mkLocals false [] []) (EraseAll rd)) as Hs.
  pose proof (parse_lines_cursor (input_lines U rd content)
                (mkLocals false [] []) (EraseAll rd)) as Hc.
  destruct (parse_lines _ _ _) as [[l1 r1]|r1].
  - destruct (store_section l1 r1) as [r2|] eqn:E; simpl.
    + pose proof (same_settings_trans _ _ _ Hs (store_section_settings _ _ _ E))
        as (_ & Q2 & Q3 & Q4 & Q5 & Q6 & Q7).
      apply store_section_cursor in E. simpl in Hc.
      split; [repeat split; assumption | congruence].
    + destruct Hs as (_ & Q2 & Q3 & Q4 & Q5 & Q6 & Q7).
      split; [repeat split; assumption | exact Hc].
  - simpl. destruct Hs as (_ & Q2 & Q3 & Q4 & Q5 & Q6 & Q7).
    split; [repeat split; assumption | exact Hc].
Qed.

(** X8: Parse writes the mapping, the parsed flag and the log of sections
    read, and nothing else: filters, flags, cursor and cache are as before.
    So the cache is not emptied: when Parse returns 0 and the new mapping
    has a section of the cached name, GetItems and Get answer from the copy
    cached before the Parse, not from the text just parsed. *)
Theorem Parse_keeps_cursor_and_cache
  (U : str -> str) (rd : INIReader) (content : str) (rc : Z) (rd' : INIReader) :
  Parse U rd content = (rc, rd') ->
  exclude_sections rd' = exclude_sections rd
  /\ include_sections rd' = include_sections rd
  /\ store_any_line rd' = store_any_line rd
  /\ do_utf8_to_gbk rd' = do_utf8_to_gbk rd
  /\ current_section rd' = current_section rd
  /\ cached_section rd' = cached_section rd
  /\ cached_section_content rd' = cached_section_content rd
  /\ (rc = 0 /\ parsed rd' = true \/ rc = -1 /\ parsed rd' = false)
  /\ (rc = 0 ->
      SectionExist rd' (cached_section rd) = true ->
      (forall data,
         GetItems rd' (cached_section rd) data
         = ((0, cached_section_content rd), rd'))
      /\ (forall itemName,
            Get rd' (cached_section rd) itemName
            = (first_value itemName (cached_section_content rd), rd'))).
Proof.
  intros HP.
  destruct (Parse_settings U rd content) as [(_ & Q2 & Q3 & Q4 & Q5 & Q6 & Q7) Qc].
  rewrite HP in *. simpl in *.
  assert (Hflag : rc = 0 /\ parsed rd' = true \/ rc = -1 /\ parsed rd' = false).
  { destruct (Parse_cases U rd content) as [[H1 (H2 & _)]|[H1 H2]];
      rewrite HP in *; simpl in *; auto. }
  repeat (split; [assumption|]).
  intros Hrc He.
  assert (Hp : parsed rd' = true).
  { destruct Hflag as [[_ H]|[H _]]; [exact H | congruence]. }
  assert (HG : forall data,
            GetItems rd' (cached_section rd) data
            = ((0, cached_section_content rd), rd')).
  { intros data. unfold GetItems, refresh_cache.
    rewrite Hp, He, Q5, str_eqb_refl. simpl. rewrite Q6. reflexivity. }
  split; [exact HG|].
  intros itemName. unfold Get. rewrite Hp, HG. reflexivity.
Qed.

Lemma Parse_keeps_cursor_and_cache_witness :
  fst (Get (snd (parse_text (snd (EnterSection reader_a (lit "a")))
                   (text ["[a]"; "x=2"]%string)))
         (lit "a") (lit "x"))
  = lit "1"
  /\ content_at (snd (parse_text (snd (EnterSection reader_a (lit "a")))
                        (text ["[a]"; "x=2"]%string)))
       (lit "a")
     = [(lit "x", lit "2")].
Proof.
  split; [|vm_compute; reflexivity].
  pose proof (Parse_keeps_cursor_and_cache (fun s => s)
                (snd (EnterSection reader_a (lit "a")))
                (text ["[a]"; "x=2"]%string) 0
                (snd (parse_text (snd (EnterSection reader_a (lit "a")))
                        (text ["[a]"; "x=2"]%string)))) as H.
  assert (HP : parse_text (snd (EnterSection reader_a (lit "a")))
                 (text ["[a]"; "x=2"]%string)
               = (0, snd (parse_text (snd (EnterSection reader_a (lit "a")))
                            (text ["[a]"; "x=2"]%string))))
    by (vm_compute; reflexivity).
  destruct (H HP) as (_ & _ & _ & _ & _ & _ & _ & _ & Hc).
  destruct (Hc eq_refl) as [_ HG]; [vm_compute; reflexivity|].
  change (cached_section (snd (EnterSection reader_a (lit "a")))) with (lit "a") in HG.
  rewrite HG. vm_compute. reflexivity.
Defined.

(** ** The log of sections read *)

Lemma map_insert_names k g m :
  map_find k m = None ->
  Permutation (k :: map fst m) (map fst (map_insert k g m)).
Proof.
  induction m as [|[k' g'] m IH]; simpl; intros H.
  - apply Permutation_refl.
  - destruct (str_eqb k' k) eqn:E'; [discriminate|].
    destruct (str_compare k k') eqn:E; simpl.
    + apply str_compare_eq in E. subst. rewrite str_eqb_refl in E'. discriminate.
    + apply Permutation_refl.
    + eapply Permutation_trans; [apply perm_swap|].
      apply perm_skip. apply IH. exact H.
Qed.

Lemma store_section_log l rd rd' log :
  store_section l rd = Some rd' ->
  Permutation log (map fst (ini_content rd)) ->
  exists log',
    read_sections rd' = read_sections rd ++ log'
    /\ Permutation (log ++ log') (map fst (ini_content rd')).
Proof.
  unfold store_section.
  destruct (negb (str_eqb (curSection l) []) && negb (length (itemGroup l) =? 0)%nat).
  - destruct (map_find (curSection l) (ini_content rd)) eqn:E; [discriminate|].
    intros [= <-] Hp. exists [curSection l]. simpl. split; [reflexivity|].
    eapply Permutation_trans; [|apply map_insert_names; exact E].
    eapply Permutation_trans; [apply Permutation_app_comm|]. simpl.
    apply perm_skip. exact Hp.
  - intros [= <-] Hp. exists []. rewrite !app_nil_r. auto.
Qed.

Lemma parse_lines_log lines l rd rs0 log :
  read_sections rd = rs0 ++ log ->
  Permutation log (map fst (ini_content rd)) ->
  match parse_lines lines l rd with
  | inl (_, rd') | inr rd' =>
      exists log', read_sections rd' = rs0 ++ log'
                   /\ Permutation log' (map fst (ini_content rd'))
  end.
Proof.
  intros H1 H2.
  pose proof (parse_lines_inv
    (fun _ r => exists log', read_sections r = rs0 ++ log'
                             /\ Permutation log' (map fst (ini_content r)))
    (fun r => exists log', read_sections r = rs0 ++ log'
                           /\ Permutation log' (map fst (ini_content r))))
    as Hinv.
  assert (Hstep : forall l0 r0 line,
    (exists log', read_sections r0 = rs0 ++ log'
                  /\ Permutation log' (map fst (ini_content r0))) ->
    match parse_line l0 r0 line with
    | Next _ rd' | Break _ rd' | Return_m1 rd' =>
        exists log', read_sections rd' = rs0 ++ log'
                     /\ Permutation log' (map fst (ini_content rd'))
    end).
  { clear. intros l r line H. unfold parse_line.
    destruct (classify line) as [|k v|m|s].
    - exact H.
    - destruct (inExcludedSection l); [exact H|].
      destruct (length (curSection l) =? 0)%nat; [exact H|].
      match goal with |- context [all_read ?x ?y] =>
        destruct (all_read_cases x y) as [-> | ->] end; exact H.
    - destruct (store_section l r) as [r1|] eqn:E; [|exact H].
      destruct H as (log & Hr & Hp).
      destruct (store_section_log _ _ _ log E Hp) as (log' & Hr' & Hp').
      assert (H1 : exists log'', read_sections r1 = rs0 ++ log''
                                 /\ Permutation log'' (map fst (ini_content r1))).
      { exists (log ++ log'). rewrite Hr', Hr, app_assoc. auto. }
      match goal with |- context [all_read ?x ?y] =>
        destruct (all_read_cases x y) as [-> | ->] end; exact H1.
    - destruct (store_any_line r && negb (inExcludedSection l)
                && negb (length (curSection l) =? 0)%nat);
      match goal with |- context [all_read ?x ?y] =>
        destruct (all_read_cases x y) as [-> | ->] end; exact H. }
  assert (H0 : exists log', read_sections rd = rs0 ++ log'
                            /\ Permutation log' (map fst (ini_content rd)))
    by (exists log; auto).
  specialize (Hinv Hstep lines l rd H0).
  destruct (parse_lines lines l rd) as [[l' rd']|rd']; exact Hinv.
Qed.

Lemma store_section_map_sorted l rd rd' :
  store_section l rd = Some rd' ->
  map_sorted (ini_content rd) -> map_sorted (ini_content rd').
Proof.
  unfold store_section.
  destruct (negb (str_eqb (curSection l) []) && negb (length (itemGroup l) =? 0)%nat).
  - destruct (map_find (curSection l) (ini_content rd)); [discriminate|].
    intros [= <-] H. simpl. apply map_insert_sorted. exact H.
  - intros [= <-]; auto.
Qed.

Lemma Parse_map_sorted U rd content :
  map_sorted (ini_content (snd (Parse U rd content))).
Proof.
  unfold Parse.
  pose proof (parse_lines_inv (fun _ r => map_sorted (ini_content r))
                (fun r => map_sorted (ini_content r))) as Hinv.
  assert (Hstep : forall l0 r0 line,
            map_sorted (ini_content r0) ->
            match parse_line l0 r0 line with
            | Next _ rd' | Break _ rd' | Return_m1 rd' =>
                map_sorted (ini_content rd')
            end).
  { intros l r line H. unfold parse_line.
    destruct (classify line) as [|k v|m|s].
    - exact H.
    - destruct (inExcludedSection l); [exact H|].
      destruct (length (curSection l) =? 0)%nat; [exact H|].
      match goal with |- context [all_read ?x ?y] =>
        destruct (all_read_cases x y) as [-> | ->] end; exact H.
    - destruct (store_section l r) as [r1|] eqn:E; [|exact H].
      pose proof (store_section_map_sorted _ _ _ E H) as H1.
      match goal with |- context [all_read ?x ?y] =>
        destruct (all_read_cases x y) as [-> | ->] end; exact H1.
    - destruct (store_any_line r && negb (inExcludedSection l)
                && negb (length (curSection l) =? 0)%nat);
      match goal with |- context [all_read ?x ?y] =>
        destruct (all_read_cases x y) as [-> | ->] end; exact H. }
  assert (H0 : map_sorted (ini_content (EraseAll rd))) by constructor.
  specialize (Hinv Hstep (input_lines U rd content) (mkLocals false [] [])
                (EraseAll rd) H0).
  destruct (parse_lines _ _ _) as [[l1 r1]|r1]; simpl; [|exact Hinv].
  destruct (store_section l1 r1) as [r2|] eqn:E; simpl; [|exact Hinv].
  apply (store_section_map_sorted _ _ _ E Hinv).
Qed.

(** X9: EraseAll does not clear the log of sections read.  After Parse the
    log is the log as it was before, followed by the names of the sections
    now in the mapping, each once. *)
Theorem Parse_read_sections
  (U : str -> str) (rd : INIReader) (content : str) :
  exists log,
    read_sections (snd (Parse U rd content)) = read_sections rd ++ log
    /\ Permutation log (GetSections (snd (Parse U rd content)))
    /\ NoDup log.
Proof.
  assert (H : exists log,
             read_sections (snd (Parse U rd content)) = read_sections rd ++ log
             /\ Permutation log (GetSections (snd (Parse U rd content)))).
  { unfold Parse, GetSections.
    pose proof (parse_lines_log (input_lines U rd content)
                  (mkLocals false [] []) (EraseAll rd) (read_sections rd) [])
      as H.
    simpl in H. rewrite app_nil_r in H.
    specialize (H eq_refl (Permutation_refl _)).
    destruct (parse_lines _ _ _) as [[l1 r1]|r1]; simpl; [|exact H].
    destruct H as (log & Hr & Hp).
    destruct (store_section l1 r1) as [r2|] eqn:E; simpl.
    - destruct (store_section_log _ _ _ log E Hp) as (log' & Hr' & Hp').
      exists (log ++ log'). rewrite Hr', Hr, app_assoc. auto.
    - exists log. auto. }
  destruct H as (log & Hr & Hp). exists log.
  split; [exact Hr|]. split; [exact Hp|].
  apply (Permutation_NoDup (Permutation_sym Hp)).
  apply sorted_names_NoDup. apply map_sorted_names.
  apply Parse_map_sorted.
Qed.

(** ** Groups *)

Lemma mm_find_In k g v : mm_find k g = Some v -> In (k, v) g.
Proof.
  induction g as [|[k' v'] g IH]; simpl; [discriminate|].
  destruct (str_eqb k' k) eqn:E.
  - apply str_eqb_eq in E. subst. intros [= ->]. auto.
  - auto.
Qed.

Lemma mm_find_with_key k g : mm_find k g = None <-> with_key k g = [].
Proof.
  induction g as [|[k' v'] g IH]; [simpl; tauto|].
  cbn [mm_find]. rewrite with_key_cons. cbn [fst].
  destruct (str_eqb k' k); simpl; [split; discriminate | exact IH].
Qed.

Lemma mm_find_None_not_In k g v : mm_find k g = None -> ~ In (k, v) g.
Proof.
  intros H Hin. apply mm_find_with_key in H.
  assert (Hf : In (k, v) (with_key k g)).
  { apply filter_In. split; [exact Hin | apply str_eqb_refl]. }
  rewrite H in Hf. destruct Hf.
Qed.




Lemma with_key_mm_erase_first k g v :
  mm_find k g = Some v ->
  with_key k g = (k, v) :: with_key k (mm_erase_first k g)
  /\ (forall k', k' <> k -> with_key k' (mm_erase_first k g) = with_key k' g)
  /\ length g = S (length (mm_erase_first k g)).
Proof.
  induction g as [|[k' v'] g IH]; [simpl; discriminate|].
  cbn [mm_find mm_erase_first].
  destruct (str_eqb k' k) eqn:E.
  - apply str_eqb_eq in E. subst k'. intros [= ->].
    rewrite with_key_cons. cbn [fst]. rewrite str_eqb_refl.
    split; [reflexivity|]. split; [|reflexivity].
    intros k' Hne. rewrite with_key_cons. cbn [fst].
    assert (str_eqb k k' = false) as -> by (apply str_eqb_neq; congruence).
    reflexivity.
  - intros H. destruct (IH H) as (H1 & H2 & H3).
    rewrite !with_key_cons. cbn [fst]. rewrite E. cbn [app].
    split; [exact H1|]. split; [|simpl; rewrite H3; reflexivity].
    intros k0 Hne. rewrite !with_key_cons. rewrite (H2 k0 Hne). reflexivity.
Qed.

Lemma content_at_find rd section g :
  map_find section (ini_content rd) = Some g -> content_at rd section = g.
Proof. unfold content_at. intros ->. reflexivity. Qed.

(** ** EnterSection *)

(** X10: EnterSection returns -1 and changes nothing for a section that is
    not there.  For one that is there it returns 0, makes it the current
    section and caches its group; on a parsed reader the accessors on the
    cursor then read this group, unless the name is the empty text, which
    they take for no current section. *)
Theorem EnterSection_then_read (rd : INIReader) (section : str) :
  (SectionExist rd section = false -> EnterSection rd section = (-1, rd))
  /\ (SectionExist rd section = true ->
      fst (EnterSection rd section) = 0
      /\ current_section (snd (EnterSection rd section)) = section
      /\ cached_section (snd (EnterSection rd section)) = section
      /\ cached_section_content (snd (EnterSection rd section))
         = content_at rd section
      /\ ini_content (snd (EnterSection rd section)) = ini_content rd
      /\ (parsed rd = true -> section <> [] ->
          (forall itemName,
             fst (Get_current (snd (EnterSection rd section)) itemName)
             = first_value itemName (content_at rd section))
          /\ (forall itemName results,
                fst (GetAll_current (snd (EnterSection rd section)) itemName results)
                = (0, results ++ prefix_values itemName (content_at rd section))))
      /\ (section = [] ->
          forall itemName,
            Get_current (snd (EnterSection rd section)) itemName
            = ([], snd (EnterSection rd section)))).
Proof.
  unfold EnterSection. split; intros He; rewrite He; simpl; [reflexivity|].
  repeat (split; [reflexivity|]).
  split.
  - intros Hp Hs.
    assert (Hs' : str_eqb section [] = false) by (apply str_eqb_neq; exact Hs).
    assert (HG : GetItems (with_cache section (content_at rd section)
                             (with_current section rd)) section []
                 = ((0, content_at rd section),
                    with_cache section (content_at rd section)
                      (with_current section rd))).
    { unfold GetItems, SectionExist, refresh_cache. simpl.
      unfold SectionExist in He. rewrite Hp, He, str_eqb_refl. reflexivity. }
    split.
    + intros itemName. unfold Get_current, Get. simpl. rewrite Hs', Hp. simpl.
      rewrite HG. reflexivity.
    + intros itemName results. unfold GetAll_current, GetAll. simpl.
      rewrite Hs', Hp. simpl. rewrite HG. reflexivity.
  - intros -> itemName. reflexivity.
Qed.

Lemma EnterSection_then_read_witness :
  EnterSection reader_a (lit "b") = (-1, reader_a)
  /\ fst (Get_current (snd (EnterSection reader_a (lit "a"))) (lit "x")) = lit "1".
Proof.
  split.
  - apply (proj1 (EnterSection_then_read reader_a (lit "b"))).
    vm_compute. reflexivity.
  - destruct (proj2 (EnterSection_then_read reader_a (lit "a")))
      as (_ & _ & _ & _ & _ & H & _); [vm_compute; reflexivity|].
    destruct H as [H _]; [vm_compute; reflexivity | discriminate|].
    rewrite H. vm_compute. reflexivity.
Defined.

(** ** Erase *)





(** ** EraseFirst *)

(** X12: with the section there and an item under the key, EraseFirst
    returns 0 and removes the first item under the key and no other; the
    cache follows, so on a parsed reader Get then returns the value of the
    next item under the key, or the empty text when that was the only
    one. *)
Theorem EraseFirst_then_Get
  (rd : INIReader) (section itemName : str) (g : string_multimap) (v : str) :
  parsed rd = true ->
  map_find section (ini_content rd) = Some g ->
  mm_find itemName g = Some v ->
  exists rd1,
    EraseFirst rd section itemName = Returned (0, rd1)
    /\ content_at rd1 section = mm_erase_first itemName g
    /\ with_key itemName g
       = (itemName, v) :: with_key itemName (mm_erase_first itemName g)
    /\ (forall k, k <> itemName ->
          with_key k (mm_erase_first itemName g) = with_key k g)
    /\ length g = S (length (mm_erase_first itemName g))
    /\ cache_fresh rd1 section
    /\ fst (Get rd1 section itemName)
       = first_value itemName (mm_erase_first itemName g).
Proof.
  intros Hp Hs Hk.
  destruct (with_key_mm_erase_first itemName g v Hk) as (W1 & W2 & W3).
  set (g' := mm_erase_first itemName g) in *.
  set (rd0 := with_content (map_assign section g' (ini_content rd)) rd).
  assert (Hfind : forall r, ini_content r = ini_content rd0 ->
                    map_find section (ini_content r) = Some g').
  { intros r ->. simpl. apply map_find_assign_same. }
  assert (HE : exists rd1,
             EraseFirst rd section itemName = Returned (0, rd1)
             /\ ini_content rd1 = ini_content rd0
             /\ parsed rd1 = true
             /\ (cached_section rd1 = section -> cached_section_content rd1 = g')).
  { unfold EraseFirst. rewrite Hs, Hk. fold g'. fold rd0.
    destruct (str_eqb (cached_section rd0) section) eqn:Ec.
    - eexists. split; [reflexivity|]. simpl. auto.
    - eexists. split; [reflexivity|]. split; [reflexivity|].
      split; [exact Hp|]. intros Hcs. apply str_eqb_neq in Ec. contradiction. }
  destruct HE as (rd1 & HE & Hcont & Hp1 & Hcache).
  exists rd1. split; [exact HE|].
  assert (Hat : content_at rd1 section = g')
    by (apply content_at_find, Hfind, Hcont).
  split; [exact Hat|]. split; [exact W1|]. split; [exact W2|].
  split; [exact W3|].
  split; [intros Hcs; rewrite Hat; apply Hcache; exact Hcs|].
  unfold Get, GetItems, SectionExist, refresh_cache.
  rewrite Hp1, (Hfind rd1 Hcont). simpl.
  destruct (str_eqb section (cached_section rd1)) eqn:Ec; simpl.
  - apply str_eqb_eq in Ec. rewrite (Hcache (eq_sym Ec)). reflexivity.
  - rewrite Hat. reflexivity.
Qed.

Lemma EraseFirst_then_Get_witness :
  exists rd1,
    EraseFirst
      (snd (EnterSection
              (snd (parse_text new_reader (text ["[a]"; "k=1"; "k=2"]%string)))
              (lit "a")))
      (lit "a") (lit "k")
    = Returned (0, rd1)
    /\ fst (Get rd1 (lit "a") (lit "k")) = lit "2".
Proof.
  destruct (EraseFirst_then_Get
              (snd (EnterSection
                      (snd (parse_text new_reader
                              (text ["[a]"; "k=1"; "k=2"]%string)))
                      (lit "a")))
              (lit "a") (lit "k")
              [(lit "k", lit "1"); (lit "k", lit "2")] (lit "1"))
    as (rd1 & H1 & _ & _ & _ & _ & _ & H7);
    try (vm_compute; reflexivity).
  exists rd1. split; [exact H1|]. rewrite H7. vm_compute. reflexivity.
Defined.

(** ** Set *)






(** ** SetBool and GetBool *)

(** X14: what SetBool writes, GetBool reads: when the section holds no item
    under the key yet and the cache holds another section, GetBool after
    SetBool returns the value set, and Get returns [true] or [false]. *)
Theorem SetBool_then_GetBool
  (rd : INIReader) (section itemName : str) (itemVal : bool) :
  cached_section rd <> section ->
  mm_find itemName (content_at rd section) = None ->
  fst (GetBool (snd (SetBool rd section itemName itemVal)) section itemName)
  = itemVal
  /\ fst (Get (snd (SetBool rd section itemName itemVal)) section itemName)
     = (if itemVal then lit "true" else lit "false").
Proof.
  intros Hc Hn. unfold SetBool.
  destruct (Set_then_Get_refreshed rd section itemName
              (if itemVal then lit "true" else lit "false") _ Hc eq_refl)
    as (v & Hv & _ & Hin).
  assert (Hval : v = if itemVal then lit "true" else lit "false").
  { destruct Hin as [H|H]; [exact H|].
    destruct (mm_find_None_not_In _ _ v Hn H). }
  rewrite Hval in Hv. clear Hval Hin. split; [|exact Hv].
  unfold GetBool.
  destruct (Get (snd (Set_ rd section itemName
                        (if itemVal then lit "true" else lit "false")))
              section itemName) as [w rd1].
  simpl in Hv. subst w. simpl. destruct itemVal; reflexivity.
Qed.

Lemma SetBool_then_GetBool_witness :
  fst (GetBool (snd (SetBool new_reader (lit "s") (lit "k") true))
         (lit "s") (lit "k")) = true.
Proof.
  apply (SetBool_then_GetBool new_reader (lit "s") (lit "k") true).
  - discriminate.
  - reflexivity.
Defined.

(** ** GetFirst *)

Lemma existsb_filter {A} (f : A -> bool) l :
  existsb f l = match filter f l with [] => false | _ :: _ => true end.
Proof.
  induction l as [|x l IH]; simpl; [reflexivity|].
  destruct (f x); simpl; [reflexivity | exact IH].
Qed.

Lemma GetAll_parsed rd section itemName results :
  parsed rd = true -> SectionExist rd section = true ->
  GetAll rd section itemName results
  = ((0, results
         ++ prefix_values itemName
              (cached_section_content (refresh_cache rd section))),
     refresh_cache rd section).
Proof.
  intros Hp He. unfold GetAll, GetItems. rewrite Hp, He. reflexivity.
Qed.

(** X15: ItemPrefixExist is the test that makes GetFirst safe.  Where it
    answers true, GetFirst reads an element that is there; on a parsed
    reader, for a section that is there, GetFirst reads element 0 of an
    empty result exactly when ItemPrefixExist answers false. *)
Theorem ItemPrefixExist_guards_GetFirst (rd : INIReader) (section itemName : str) :
  (fst (ItemPrefixExist rd section itemName) = true ->
   exists v, fst (GetFirst rd section itemName) = Some v)
  /\ (parsed rd = true -> SectionExist rd section = true ->
      (fst (GetFirst rd section itemName) = None
       <-> fst (ItemPrefixExist rd section itemName) = false)).
Proof.
  assert (Hcore : parsed rd = true -> SectionExist rd section = true ->
            fst (GetFirst rd section itemName)
            = nth_error (prefix_values itemName
                           (cached_section_content (refresh_cache rd section))) 0
            /\ fst (ItemPrefixExist rd section itemName)
               = match prefix_values itemName
                         (cached_section_content (refresh_cache rd section)) with
                 | [] => false | _ :: _ => true end).
  { intros Hp He. split.
    - unfold GetFirst. rewrite Hp. simpl.
      rewrite (GetAll_parsed rd section itemName [] Hp He). reflexivity.
    - unfold ItemPrefixExist. rewrite He. simpl. rewrite existsb_filter.
      unfold prefix_values.
      destruct (filter _ _); reflexivity. }
  split.
  - intros Ht. destruct (parsed rd) eqn:Hp.
    + destruct (SectionExist rd section) eqn:He.
      * destruct (Hcore eq_refl eq_refl) as [H1 H2]. rewrite H1.
        rewrite H2 in Ht.
        destruct (prefix_values _ _) as [|v vs]; [discriminate|].
        exists v. reflexivity.
      * unfold ItemPrefixExist in Ht. rewrite He in Ht. discriminate.
    + exists []. unfold GetFirst. rewrite Hp. reflexivity.
  - intros Hp He. destruct (Hcore Hp He) as [-> ->].
    destruct (prefix_values _ _); simpl; split; congruence.
Qed.

Lemma ItemPrefixExist_guards_GetFirst_witness :
  fst (ItemPrefixExist reader_a (lit "a") (lit "y")) = false
  /\ fst (GetFirst reader_a (lit "a") (lit "y")) = None.
Proof.
  assert (H : fst (ItemPrefixExist reader_a (lit "a") (lit "y")) = false)
    by (vm_compute; reflexivity).
  split; [exact H|].
  apply (proj2 (ItemPrefixExist_guards_GetFirst reader_a (lit "a") (lit "y")));
    [vm_compute; reflexivity | vm_compute; reflexivity | exact H].
Defined.

(** ** Get and GetFirst on one key *)

Lemma starts_with_refl k : starts_with k k = true.
Proof.
  induction k as [|c k IH]; simpl; [reflexivity|].
  rewrite Ascii.eqb_refl. exact IH.
Qed.

(** A key is below every other key it is a prefix of. *)
Lemma starts_with_ltb k k' :
  starts_with k k' = true -> k' <> k -> str_ltb k k' = true.
Proof.
  unfold str_ltb. revert k'. induction k as [|c k IH]; intros [|c' k']; simpl.
  - intros _ H. destruct H; reflexivity.
  - reflexivity.
  - discriminate.
  - rewrite andb_true_iff. intros [Hc Hk] Hne.
    apply Ascii.eqb_eq in Hc. subst c'. rewrite ascii_compare_refl.
    apply IH; [exact Hk | congruence].
Qed.

Lemma prefix_values_exact_key k g v :
  mm_sorted g -> mm_find k g = Some v ->
  exists vs, prefix_values k g = v :: vs.
Proof.
  unfold prefix_values. induction 1 as [|[k' v'] g Hs IH Hall]; simpl;
    [discriminate|].
  destruct (str_eqb k' k) eqn:E.
  - apply str_eqb_eq in E. subst k'. intros [= ->].
    rewrite starts_with_refl. simpl. eauto.
  - intros Hf. destruct (starts_with k k') eqn:Es.
    + exfalso. apply str_eqb_neq in E.
      pose proof (starts_with_ltb k k' Es E) as Hlt.
      apply mm_find_In in Hf. rewrite Forall_forall in Hall.
      specialize (Hall _ Hf). unfold key_le in Hall. simpl in Hall. congruence.
    + apply IH. exact Hf.
Qed.

(** X16: on a parsed reader with its containers in order, when ItemExist
    answers true for a key, GetFirst with this key as prefix returns what
    Get returns for it: the items under the key itself come before those
    under the longer keys it is a prefix of. *)
Theorem GetFirst_is_Get_on_existing_key
  (rd : INIReader) (section itemName : str) :
  ordered rd ->
  parsed rd = true ->
  fst (ItemExist rd section itemName) = true ->
  fst (GetFirst rd section itemName) = Some (fst (Get rd section itemName)).
Proof.
  intros Ho Hp Hi.
  destruct (SectionExist rd section) eqn:He;
    [|unfold ItemExist in Hi; rewrite He in Hi; discriminate].
  unfold ItemExist in Hi. rewrite He in Hi. simpl in Hi.
  destruct (mm_find itemName (cached_section_content (refresh_cache rd section)))
    as [v|] eqn:Ef; [|discriminate].
  destruct (ordered_refresh_cache rd section Ho) as (_ & _ & Hs).
  destruct (prefix_values_exact_key _ _ _ Hs Ef) as [vs Hvs].
  unfold GetFirst, Get. rewrite Hp. simpl.
  rewrite (GetAll_parsed rd section itemName [] Hp He).
  unfold GetItems. rewrite Hp, He. simpl. rewrite Hvs, Ef. reflexivity.
Qed.

Lemma GetFirst_is_Get_on_existing_key_witness :
  fst (GetFirst
         (snd (parse_text new_reader (text ["[a]"; "key2=b"; "key=a"]%string)))
         (lit "a") (lit "key"))
  = Some (fst (Get
                 (snd (parse_text new_reader
                         (text ["[a]"; "key2=b"; "key=a"]%string)))
                 (lit "a") (lit "key"))).
Proof.
  apply GetFirst_is_Get_on_existing_key.
  - apply ordered_Parse. constructor.
  - vm_compute. reflexivity.
  - vm_compute. reflexivity.
Defined.

(** ** The cache *)













(** ** The cursor and EraseFirst *)

(** X19: after EnterSection has returned 0 for a name that is not the
    empty text, EraseFirst on the cursor returns: 0 when the section holds
    the key, -1 when not.  SetCurrentSection does not test the name: with
    the cursor on a section that is not there, EraseFirst on the cursor
    throws, where Erase on the cursor returns -1. *)
Theorem EraseFirst_current_after_EnterSection
  (rd : INIReader) (section itemName : str) :
  section <> [] ->
  (SectionExist rd section = true ->
   exists r rd1,
     EraseFirst_current (snd (EnterSection rd section)) itemName
     = Returned (r, rd1)
     /\ (r = 0 <-> mm_find itemName (content_at rd section) <> None)
     /\ (r = -1 <-> mm_find itemName (content_at rd section) = None))
  /\ (SectionExist rd section = false ->
      EraseFirst_current (SetCurrentSection rd section) itemName
      = Thrown_out_of_range
      /\ Erase_current (SetCurrentSection rd section) itemName
         = (-1, SetCurrentSection rd section)).
Proof.
  intros Hs. assert (Hs' : str_eqb section [] = false)
    by (apply str_eqb_neq; exact Hs).
  unfold SectionExist, EnterSection, SectionExist, content_at.
  destruct (map_find section (ini_content rd)) as [g|] eqn:E; split;
    try discriminate; intros _.
  - unfold EraseFirst_current, EraseFirst. simpl. rewrite Hs', E. simpl.
    destruct (mm_find itemName g) as [v|].
    + rewrite str_eqb_refl. eexists _, _. split; [reflexivity|].
      split; split; congruence.
    + eexists _, _. split; [reflexivity|]. split; split; congruence.
  - unfold EraseFirst_current, Erase_current, EraseFirst, Erase, SectionExist.
    simpl. rewrite Hs', E. split; reflexivity.
Qed.

Lemma EraseFirst_current_after_EnterSection_witness :
  exists r rd1,
    EraseFirst_current (snd (EnterSection reader_a (lit "a"))) (lit "x")
    = Returned (r, rd1)
    /\ (r = 0 <-> mm_find (lit "x") (content_at reader_a (lit "a")) <> None)
    /\ (r = -1 <-> mm_find (lit "x") (content_at reader_a (lit "a")) = None).
Proof.
  apply (EraseFirst_current_after_EnterSection reader_a (lit "a") (lit "x")).
  - discriminate.
  - vm_compute. reflexivity.
Defined.

(** ** SetLong and SetArray *)

Lemma number_of_to_string (z : Z) : number_of (to_string z) = Some z.
Proof.
  unfold number_of, to_string, lit.
  rewrite string_of_list_ascii_of_string.
  rewrite NilZero.isi.
  - simpl. rewrite DecimalZ.of_to. reflexivity.
  - destruct z as [|p|p]; simpl; try discriminate.
    intros [= H]. exact (DecimalPos.Unsigned.to_uint_nonnil p H).
  - destruct z as [|p|p]; simpl; try discriminate.
    intros [= H]. exact (DecimalPos.Unsigned.to_uint_nonnil p H).
Qed.

Lemma to_string_not_empty (z : Z) : to_string z <> [].
Proof.
  intros H. pose proof (number_of_to_string z) as Hn. rewrite H in Hn.
  cbv in Hn. discriminate Hn.
Qed.

(** X20: what SetLong writes denotes the number.  When the section holds
    no item under the key yet and the cache holds another section, Get after
    SetLong returns the decimal text of the number, which is not empty and
    reads back as the number; so two numbers are stored as the same text
    only if they are equal. *)
Theorem SetLong_then_Get
  (rd : INIReader) (section itemName : str) (itemVal : Z) :
  cached_section rd <> section ->
  mm_find itemName (content_at rd section) = None ->
  fst (Get (snd (SetLong rd section itemName itemVal)) section itemName)
  = to_string itemVal
  /\ number_of (to_string itemVal) = Some itemVal
  /\ to_string itemVal <> []
  /\ (forall z, to_string z = to_string itemVal -> z = itemVal).
Proof.
  intros Hc Hn. unfold SetLong.
  destruct (Set_then_Get_refreshed rd section itemName (to_string itemVal)
              _ Hc eq_refl) as (v & Hv & _ & Hin).
  assert (Hval : v = to_string itemVal).
  { destruct Hin as [H|H]; [exact H|].
    destruct (mm_find_None_not_In _ _ v Hn H). }
  rewrite Hval in Hv. split; [exact Hv|].
  split; [apply number_of_to_string|].
  split; [apply to_string_not_empty|].
  intros z Hz. pose proof (number_of_to_string z) as H1.
  rewrite Hz, number_of_to_string in H1. congruence.
Qed.

Lemma SetLong_then_Get_witness :
  fst (Get (snd (SetLong new_reader (lit "s") (lit "k") (-42)))
         (lit "s") (lit "k"))
  = lit "-42".
Proof.
  apply (SetLong_then_Get new_reader (lit "s") (lit "k") (-42)).
  - discriminate.
  - reflexivity.
Defined.

Lemma fold_left_append (sep : str) (l : list str) (acc : str) :
  fold_left (fun data x => data ++ (x ++ sep)) l acc
  = acc ++ concat (map (fun x => x ++ sep) l).
Proof.
  revert acc. induction l as [|x l IH]; intros acc; simpl.
  - rewrite app_nil_r. reflexivity.
  - rewrite IH, <- app_assoc. reflexivity.
Qed.

Lemma fold_left_to_string (sep : str) (l : list Z) (acc : str) :
  fold_left (fun data x => data ++ (to_string x ++ sep)) l acc
  = fold_left (fun data x => data ++ (x ++ sep)) (map to_string l) acc.
Proof.
  revert acc. induction l as [|x l IH]; intros acc; simpl; [reflexivity|].
  apply IH.
Qed.

Lemma concat_joined (sep : str) (l : list str) :
  l <> [] -> concat (map (fun x => x ++ sep) l) = joined sep l ++ sep.
Proof.
  induction l as [|x l IH]; [congruence|]. intros _.
  destruct l as [|y l].
  - simpl. rewrite app_nil_r. reflexivity.
  - change (concat (map (fun x => x ++ sep) (x :: y :: l)))
      with ((x ++ sep) ++ concat (map (fun x => x ++ sep) (y :: l))).
    rewrite IH by discriminate.
    change (joined sep (x :: y :: l)) with (x ++ sep ++ joined sep (y :: l)).
    rewrite <- !app_assoc. reflexivity.
Qed.

Lemma substr0_app (a b : str) :
  Z.of_nat (length a) < 2 ^ 64 ->
  substr0 (size_t_wrap (Z.of_nat (length (a ++ b)) - Z.of_nat (length b)))
    (a ++ b)
  = a.
Proof.
  intros Hlt. unfold size_t_wrap, substr0.
  rewrite length_app, Nat2Z.inj_add.
  replace (Z.of_nat (length a) + Z.of_nat (length b) - Z.of_nat (length b))
    with (Z.of_nat (length a)) by lia.
  rewrite Z.mod_small by lia.
  destruct (Z.of_nat (length a) + Z.of_nat (length b) <=? Z.of_nat (length a))
    eqn:E.
  - apply Z.leb_le in E. assert (Hb : length b = 0%nat) by lia.
    destruct b; [apply app_nil_r | discriminate Hb].
  - rewrite Nat2Z.id, firstn_app, Nat.sub_diag, firstn_all. simpl.
    apply app_nil_r.
Qed.

Lemma substr0_nil (n : Z) : substr0 n [] = [].
Proof.
  unfold substr0. destruct (_ <=? _); [reflexivity | apply firstn_nil].
Qed.

(** X21: SetArray stores the decimal texts of the elements with the
    separator between each two of them and none at the end: it is Set with
    that text, for a text shorter than 2^64 bytes.  For an empty array the
    size of the text minus the size of the separator wraps around, and the
    value stored is the empty text. *)
Theorem SetArray_joined
  (rd : INIReader) (section itemName separator : str) (Array : list Z) :
  Z.of_nat (length (joined separator (map to_string Array))) < 2 ^ 64 ->
  SetArray rd section itemName separator Array
  = Set_ rd section itemName (joined separator (map to_string Array))
  /\ (Array = [] ->
      SetArray rd section itemName separator Array
      = Set_ rd section itemName []).
Proof.
  intros Hlt.
  assert (H : SetArray rd section itemName separator Array
              = Set_ rd section itemName
                  (joined separator (map to_string Array))).
  { unfold SetArray. f_equal.
    rewrite fold_left_to_string, fold_left_append. cbn [app].
    destruct Array as [|x l].
    - cbn [map concat joined]. apply substr0_nil.
    - rewrite concat_joined by discriminate.
      apply substr0_app. exact Hlt. }
  split; [exact H|]. intros ->. exact H.
Qed.

Lemma SetArray_joined_witness :
  SetArray new_reader (lit "s") (lit "k") (lit ", ") [1; -2; 30]
  = Set_ new_reader (lit "s") (lit "k") (lit "1, -2, 30").
Proof.
  apply (SetArray_joined new_reader (lit "s") (lit "k") (lit ", ") [1; -2; 30]).
  vm_compute. reflexivity.
Defined.
